(** * Surge DSP utilities: a shallow embedding of [src/common/dsp/utilities/DSPUtils.h]

    The header defines the quadrature oscillator [quadr_osc], the two parameter
    smoothers [lipol] (linear ramp) and [lag] (one-pole exponential lag), and a
    collection of stateless helpers (interpolation kernels, fast tanh
    approximations, amplitude curves, window functions).

    Modelling conventions, used throughout:
    - the C++ types [float] and [double], and the template parameter [T] of the
      smoothers, are the real numbers [R]: a statement over these definitions
      is a statement in exact arithmetic, and rounding, overflow to infinity
      and NaN are outside of it.  Two pieces of the code are modelled a second
      time, or only, over Rocq's binary64 numbers ([float], the IEEE 754
      [double] with rounding to nearest even), where the machine arithmetic
      decides what the code does: [tanh_faster1], and the instance
      [lag<double>] of the exponential-lag smoother ([lag_double]);
    - the C++ type [int] is [Z]; the conversion of an [int] to a floating type
      is [IZR];
    - a division of two [int] operands is C's truncating division [Z.quot],
      also where the quotient initialises a floating constant
      ([const double a = 2 / 3]);
    - every class is a record of its data members, and every member function
      is a function from the state before the call to the state after it;
    - the template parameter [first_run_checks] is a boolean argument;
    - a data member a constructor leaves uninitialised is an argument of the
      constructor's model. *)

From Stdlib Require Import Floats.
From Stdlib Require Import Reals Lra Psatz ZArith Bool List.
Import ListNotations.

Local Open Scope R_scope.

(** ** Integer expressions that initialise floating constants *)

(** [x / y] on two [int] operands, then converted to the floating type. *)
Definition int_quot (x y : Z) : R := IZR (Z.quot x y).

(** The conversion of an [int] to [double]; it is exact, an [int] having
    fewer bits than the mantissa of a [double].  The [int] 0 gives [+0.0]. *)
Definition double_of_int (z : Z) : float :=
  if (z <? 0)%Z then PrimFloat.opp (of_uint63 (Uint63.of_Z (- z)))
  else of_uint63 (Uint63.of_Z z).

(** [x / y] on two [int] operands, then converted to [double]. *)
Definition int_quot_double (x y : Z) : float := double_of_int (Z.quot x y).

(** ** [class quadr_osc] *)

Module quadr_osc.

Record state : Type := mk { r : R; i : R; dr : R; di : R }.

(** The constructor sets [r] and [i] only; [dr] and [di] keep whatever the
    storage held, here [dr0] and [di0]. *)
Definition create (dr0 di0 : R) : state :=
  {| r := 0; i := -1; dr := dr0; di := di0 |}.

Definition set_rate (w : R) (s : state) : state :=
  let dr' := cos w in
  let di' := sin w in
  (* normalize vector *)
  let n := 1 / sqrt (r s * r s + i s * i s) in
  {| r := r s * n; i := i s * n; dr := dr'; di := di' |}.

Definition set_phase (w : R) (s : state) : state :=
  {| r := sin w; i := - cos w; dr := dr s; di := di s |}.

Definition process (s : state) : state :=
  let lr := r s in
  let li := i s in
  {| r := dr s * lr - di s * li;
     i := dr s * li + di s * lr;
     dr := dr s; di := di s |}.

(** The public interface as a type of calls, and the run of a sequence of
    calls on an oscillator. *)
Inductive call : Type :=
| SetRate (w : R)
| SetPhase (w : R)
| Process.

Definition exec (c : call) (s : state) : state :=
  match c with
  | SetRate w => set_rate w s
  | SetPhase w => set_phase w s
  | Process => process s
  end.

Definition run (cs : list call) (s : state) : state :=
  fold_left (fun acc c => exec c acc) cs s.

(** Squared magnitude of the phasor and of the per-sample rotation. *)
Definition norm2 (s : state) : R := r s * r s + i s * i s.
Definition rot2 (s : state) : R := dr s * dr s + di s * di s.

(** The invariant of an oscillator whose rate has been set: phasor and
    rotation both of unit magnitude. *)
Definition on_circle (s : state) : Prop := norm2 s = 1 /\ rot2 s = 1.

End quadr_osc.

(** ** [template <class T, bool first_run_checks = true> class lipol] *)

Module lipol.

Record state : Type :=
  mk { v : R; new_v : R; dv : R; bs_inv : R; first_run : bool }.

Section Template.

Variable first_run_checks : bool.

(** [BLOCK_SIZE] is a constant of [globals.h]; [reset] takes it as a
    parameter. *)
Variable BLOCK_SIZE : Z.

Definition setBlockSize (n : Z) (s : state) : state :=
  {| v := v s; new_v := new_v s; dv := dv s;
     bs_inv := 1 / IZR n; first_run := first_run s |}.

Definition reset (s : state) : state :=
  let fr := if first_run_checks then true else first_run s in
  setBlockSize BLOCK_SIZE
    {| v := 0; new_v := 0; dv := 0; bs_inv := bs_inv s; first_run := fr |}.

(** [lipol() { reset(); }]: the members are indeterminate before the
    call of [reset]; [junk] stands for them. *)
Definition create (junk : state) : state := reset junk.

Definition newValue (f : R) (s : state) : state :=
  let v1 := new_v s in
  let new_v1 := f in
  let guard := first_run_checks && first_run s in
  let v2 := if guard then f else v1 in
  let fr := if guard then false else first_run s in
  {| v := v2; new_v := new_v1; dv := (new_v1 - v2) * bs_inv s;
     bs_inv := bs_inv s; first_run := fr |}.

Definition getTargetValue (s : state) : R := new_v s.

Definition instantize (s : state) : state :=
  {| v := new_v s; new_v := new_v s; dv := 0;
     bs_inv := bs_inv s; first_run := first_run s |}.

Definition process (s : state) : state :=
  {| v := v s + dv s; new_v := new_v s; dv := dv s;
     bs_inv := bs_inv s; first_run := first_run s |}.

End Template.

(** [k] calls of [process]. *)
Definition advance (k : nat) (s : state) : state := Nat.iter k process s.

(** The values of [v] read after each of the first [k] calls of [process]. *)
Fixpoint outputs (k : nat) (s : state) : list R :=
  match k with
  | O => []
  | S k' => let s' := process s in v s' :: outputs k' s'
  end.

End lipol.

(** ** [template <class T, bool first_run_checks = true> class lag] *)

Module lag.

Record state : Type :=
  mk { v : R; target_v : R; first_run : bool; lp : R; lpinv : R }.

Section Template.

Variable first_run_checks : bool.

(** [lag(T lp)]; [fr0] is the indeterminate content of [first_run], which
    the constructor overwrites only when [first_run_checks] is set. *)
Definition create_rate (lp0 : R) (fr0 : bool) : state :=
  {| v := 0; target_v := 0;
     first_run := if first_run_checks then true else fr0;
     lp := lp0; lpinv := 1 - lp0 |}.

(** [lag()], with the rate [0.004]. *)
Definition create (fr0 : bool) : state :=
  let lp0 := 4 / 1000 in
  {| v := 0; target_v := 0;
     first_run := if first_run_checks then true else fr0;
     lp := lp0; lpinv := 1 - lp0 |}.

Definition setRate (lp0 : R) (s : state) : state :=
  {| v := v s; target_v := target_v s; first_run := first_run s;
     lp := lp0; lpinv := 1 - lp0 |}.

Definition newValue (f : R) (s : state) : state :=
  let guard := first_run_checks && first_run s in
  {| v := if guard then f else v s;
     target_v := f;
     first_run := if guard then false else first_run s;
     lp := lp s; lpinv := lpinv s |}.

Definition startValue (f : R) (s : state) : state :=
  let guard := first_run_checks && first_run s in
  {| v := f; target_v := f;
     first_run := if guard then false else first_run s;
     lp := lp s; lpinv := lpinv s |}.

Definition instantize (s : state) : state :=
  {| v := target_v s; target_v := target_v s; first_run := first_run s;
     lp := lp s; lpinv := lpinv s |}.

Definition getTargetValue (s : state) : R := target_v s.

Definition process (s : state) : state :=
  {| v := v s * lpinv s + target_v s * lp s;
     target_v := target_v s; first_run := first_run s;
     lp := lp s; lpinv := lpinv s |}.

(** The member functions as calls, to speak of reachable states. *)
Inductive call : Type :=
| SetRate (lp0 : R)
| NewValue (f : R)
| StartValue (f : R)
| Instantize
| Process.

Definition exec (c : call) (s : state) : state :=
  match c with
  | SetRate lp0 => setRate lp0 s
  | NewValue f => newValue f s
  | StartValue f => startValue f s
  | Instantize => instantize s
  | Process => process s
  end.

(** States a client can reach: either constructor, then any calls. *)
Inductive reachable : state -> Prop :=
| reach_create : forall fr0, reachable (create fr0)
| reach_create_rate : forall lp0 fr0, reachable (create_rate lp0 fr0)
| reach_exec : forall c s, reachable s -> reachable (exec c s).

End Template.

(** [t] calls of [process]. *)
Definition advance (t : nat) (s : state) : state := Nat.iter t process s.

(** [lp] and [lpinv] are private and only ever written together. *)
Definition coherent (s : state) : Prop := lpinv s = 1 - lp s.

End lag.

(** ** The instance [lag<double>], over binary64

    The same class with [T = double]: the member functions are those of
    [lag], every arithmetic operation being the rounded one of the machine.
    In particular [lpinv] is the rounded [1 - lp]. *)

Module lag_double.

Record state : Type :=
  mk { v : float; target_v : float; first_run : bool;
       lp : float; lpinv : float }.

Section Template.

Variable first_run_checks : bool.

Definition create_rate (lp0 : float) (fr0 : bool) : state :=
  {| v := 0%float; target_v := 0%float;
     first_run := if first_run_checks then true else fr0;
     lp := lp0; lpinv := (1 - lp0)%float |}.

(** [lag()]: the literal [0.004] is the [double] nearest to it, which is
    also the rounded quotient of 4 by 1000. *)
Definition create (fr0 : bool) : state :=
  let lp0 := (4 / 1000)%float in
  {| v := 0%float; target_v := 0%float;
     first_run := if first_run_checks then true else fr0;
     lp := lp0; lpinv := (1 - lp0)%float |}.

Definition setRate (lp0 : float) (s : state) : state :=
  {| v := v s; target_v := target_v s; first_run := first_run s;
     lp := lp0; lpinv := (1 - lp0)%float |}.

Definition newValue (f : float) (s : state) : state :=
  let guard := first_run_checks && first_run s in
  {| v := if guard then f else v s;
     target_v := f;
     first_run := if guard then false else first_run s;
     lp := lp s; lpinv := lpinv s |}.

Definition startValue (f : float) (s : state) : state :=
  let guard := first_run_checks && first_run s in
  {| v := f; target_v := f;
     first_run := if guard then false else first_run s;
     lp := lp s; lpinv := lpinv s |}.

Definition instantize (s : state) : state :=
  {| v := target_v s; target_v := target_v s; first_run := first_run s;
     lp := lp s; lpinv := lpinv s |}.

Definition getTargetValue (s : state) : float := target_v s.

Definition process (s : state) : state :=
  {| v := (v s * lpinv s + target_v s * lp s)%float;
     target_v := target_v s; first_run := first_run s;
     lp := lp s; lpinv := lpinv s |}.

End Template.

(** [t] calls of [process]. *)
Definition advance (t : nat) (s : state) : state := Nat.iter t process s.

End lag_double.


(** ** Stateless helpers *)

(** *** Library functions the helpers call *)

(** Modelled from the spec: [limit_range] is declared in the header
    [vembertech/basic_dsp.h], not in [DSPUtils.h].  The spec describes its
    use as clamping a value to a range: the input of [linear_to_amp] is
    clamped to a small positive epsilon, the outputs of [amp_to_db] and
    [db_to_amp] are clamped to [[-192, 96]] and [[0, 2]]. *)
Definition limit_range (x low high : R) : R := Rmin (Rmax x low) high.

(** [powf base e] of the C library, for a positive [base]; the header only
    calls it with a base that is positive (a clamped value, or [2]). *)
Definition powf (base e : R) : R := Rpower base e.

(** [log2 x] of the C library, for a positive [x]. *)
Definition log2 (x : R) : R := ln x / ln 2.

(** *** Interpolation *)

Definition cubic_ipol (y0 y1 y2 y3 mu : R) : R :=
  let mu2 := mu * mu in
  let a0 := y3 - y2 - y0 + y1 in
  let a1 := y0 - y1 - a0 in
  let a2 := y2 - y0 in
  let a3 := y1 in
  a0 * mu * mu2 + a1 * mu2 + a2 * mu + a3.

(** *** Fast tanh approximations *)

(** [tanh_fast(double)]. *)
Definition tanh_fast (inp : R) : R :=
  let x := Rabs inp in
  let a := int_quot 2 3 in
  let xx := x * x in
  let denom := 1 + x + xx + a * x * xx in
  (if Rlt_dec 0 inp then 1 else -1) * (1 - 1 / denom).

(** [tanh_fast(float)].  The reciprocal of [denom] is taken by the SSE
    instruction behind [_mm_rcp_ss]; [rcp_ss] stands for what the instruction
    computes. *)
Definition tanh_fast_float (rcp_ss : R -> R) (inp : R) : R :=
  let a := int_quot 2 3 in
  let x := Rabs inp in
  let xx := x * x in
  let denom := 1 + x + xx + a * x * xx in
  let denom := rcp_ss denom in
  (if Rlt_dec 0 inp then 1 else -1) * (1 - denom).

(** [tanh_faster1(double)], over binary64: every operation rounds, overflows
    and propagates NaN as the machine operation does. *)
Definition tanh_faster1 (x : float) : float :=
  let a := int_quot_double (-1) 3 in
  let b := int_quot_double 2 15 in
  let xs := (x * x)%float in
  let y := (1 + xs * a + xs * xs * b)%float in
  (y * x)%float.

(** *** Amplitude curves *)

Definition amp_to_linear (x : R) : R :=
  let x := Rmax 0 x in
  x * x * x.

Definition linear_to_amp (x : R) : R :=
  powf (limit_range x (1 / 10 ^ 10) 1) (1 / 3).

Definition amp_to_db (x : R) : R := limit_range (18 * log2 x) (-192) 96.

Definition db_to_amp (x : R) : R := limit_range (powf 2 (x / 18)) 0 2.

(** *** Window functions *)

Definition hanning (i n : Z) : R :=
  if (i >=? n)%Z then 0
  else 5 / 10 * (1 - cos (2 * PI * IZR i / IZR (n - 1))).

Definition hamming (i n : Z) : R :=
  if (i >=? n)%Z then 0
  else 54 / 100 - 46 / 100 * cos (2 * PI * IZR i / IZR (n - 1)).

(** ** Vocabulary of the specification *)

(** The cubic polynomial with coefficients [c0 .. c3]. *)
Definition cubic_poly (c0 c1 c2 c3 x : R) : R :=
  c0 + c1 * x + c2 * (x * x) + c3 * (x * x * x).

(** The sign of a real number. *)
Definition sign (x : R) : R :=
  if Rlt_dec 0 x then 1 else if Rlt_dec x 0 then -1 else 0.

(** Linear interpolation at position [p] between [a] and [b]. *)
Definition lin_interp (a b p : R) : R := a + p * (b - a).

(** ** The remaining helpers of the header *)

(** *** Numeric guards *)

(** [flush_denormal(double &d)]: the value left in [d]. *)
Definition flush_denormal (d : R) : R :=
  if Rlt_dec (Rabs d) (1 / 10 ^ 30) then 0 else d.



(** *** The other interpolation kernels *)

Definition lerp (a b x : R) : R := (1 - x) * a + x * b.

Definition cos_ipol (y1 y2 mu : R) : R :=
  let mu2 := (1 - cos (mu * PI)) * (5 / 10) in
  y1 * (1 - mu2) + y2 * mu2.

(** [odd] is an [int] used as a condition: any value but 0 selects the
    first branch. *)
Definition quad_spline_ipol (y0 y1 y2 y3 mu : R) (odd : Z) : R :=
  if (odd =? 0)%Z then
    let mu := mu * (5 / 10) in
    let f0 := mu * y2 + (1 - mu) * y1 in
    let f1 := mu * y3 + (1 - mu) * y2 in
    mu * f1 + (1 - mu) * f0
  else
    let mu := 5 / 10 + mu * (5 / 10) in
    let f0 := mu * y1 + (1 - mu) * y0 in
    let f1 := mu * y2 + (1 - mu) * y1 in
    mu * f1 + (1 - mu) * f0.

Definition quad_bspline (y0 y1 y2 mu : R) : R :=
  5 / 10 * (y2 * (mu * mu) + y1 * (-2 * mu * mu + 2 * mu + 1)
            + y0 * (mu * mu - 2 * mu + 1)).

(** *** Panning *)

(** [trixpan(float &L, float &R, float x)]: the values left in [L] and in
    [R], in this order.  In either branch the second assignment reads the
    operand the first one did not write. *)
Definition trixpan (L R0 x : R) : R * R :=
  if Rlt_dec x 0 then
    let L' := L - x * R0 in
    let R' := (1 + x) * R0 in
    (L', R')
  else
    let R' := x * L + R0 in
    let L' := (1 - x) * L in
    (L', R').

(** *** Cardinal sines *)

Definition sincf (x : R) : R :=
  if Req_dec_T x 0 then 1 else sin (PI * x) / (PI * x).

Definition sinc (x : R) : R :=
  if Rlt_dec (Rabs x) (1 / 10 ^ 22) then 1 else sin x / x.

(** *** The other window functions *)

(** [blackman(int i, int n)]. *)
Definition blackman (i n : Z) : R :=
  42 / 100 - 5 / 10 * cos (2 * PI * IZR i / IZR (n - 1))
  + 8 / 100 * cos (4 * PI * IZR i / IZR (n - 1)).

(** [blackman(double i, int n)]. *)
Definition blackman_double (i : R) (n : Z) : R :=
  42 / 100 - 5 / 10 * cos (2 * PI * i / IZR (n - 1))
  + 8 / 100 * cos (4 * PI * i / IZR (n - 1)).

(** [n / 2] is a division of [int]s. *)
Definition symmetric_blackman (i : R) (n : Z) : R :=
  let i := i - IZR (Z.quot n 2) in
  42 / 100 - 5 / 10 * cos (2 * PI * i / IZR n)
  + 8 / 100 * cos (4 * PI * i / IZR n).

(** [blackman_harris(int i, int n)]. *)
Definition blackman_harris (i n : Z) : R :=
  35875 / 100000 - 48829 / 100000 * cos (2 * PI * IZR i / IZR (n - 1))
  + 14128 / 100000 * cos (4 * PI * IZR i / IZR (n - 1))
  - 1168 / 100000 * cos (6 * PI * IZR i / IZR (n - 1)).

(** [blackman_harris(double i, int n)]. *)
Definition blackman_harris_double (i : R) (n : Z) : R :=
  35875 / 100000 - 48829 / 100000 * cos (2 * PI * i / IZR (n - 1))
  + 14128 / 100000 * cos (4 * PI * i / IZR (n - 1))
  - 1168 / 100000 * cos (6 * PI * i / IZR (n - 1)).

(** The second cosine is taken over [n - 1], the other two over [n]. *)
Definition symmetric_blackman_harris (i : R) (n : Z) : R :=
  let i := i - IZR (Z.quot n 2) in
  35875 / 100000 - 48829 / 100000 * cos (2 * PI * i / IZR n)
  + 14128 / 100000 * cos (4 * PI * i / IZR (n - 1))
  - 1168 / 100000 * cos (6 * PI * i / IZR n).

(** ** The cursor handling of [struct FilterAnalysis]
    ([src/surge-xt/gui/overlays/FilterAnalysis.h]) *)

Module FilterAnalysis.

(** [juce::Point<int>] and [juce::Point<float>]. *)
Definition point_int : Type := (Z * Z)%type.
Definition point_float : Type := (R * R)%type.

Definition toFloat (p : point_int) : point_float :=
  (IZR (fst p), IZR (snd p)).

(** The calls the overlay makes on the main mouse source of the desktop. *)
Inductive mouse_call : Type :=
| enableUnboundedMouseMovement (b : bool)
| setScreenPosition (p : point_float).

(** The two members the inline functions write. *)
Record state : Type :=
  mk { cursorHideOrigin : point_int; cursorHidden : bool }.

(** The member initialisers: [cursorHidden{false}], and the origin for the
    default-constructed point. *)
Definition initial : state :=
  {| cursorHideOrigin := (0%Z, 0%Z); cursorHidden := false |}.

Section Component.

(** [localPointToGlobal] is inherited from the component class. *)
Variable localPointToGlobal : point_int -> point_int.

(** [showCursorAt(const juce::Point<int> &w)]. *)
Definition showCursorAt (w : point_int) (s : state) : state :=
  {| cursorHideOrigin := w; cursorHidden := cursorHidden s |}.

(** [showCursor] is what [Surge::GUI::showCursor(storage)] answers at the
    time of the call.  The result is the state after the call and the calls
    made on the mouse source, in order. *)
Definition guaranteeCursorShown (showCursor : bool) (s : state)
  : state * list mouse_call :=
  if negb showCursor && cursorHidden s then
    let h := localPointToGlobal (cursorHideOrigin s) in
    ({| cursorHideOrigin := cursorHideOrigin s; cursorHidden := false |},
     [enableUnboundedMouseMovement false; setScreenPosition (toFloat h)])
  else (s, []).

Definition hideCursor (showCursor : bool) (w : point_int) (s : state)
  : state * list mouse_call :=
  if negb showCursor then
    ({| cursorHideOrigin := w; cursorHidden := true |},
     [enableUnboundedMouseMovement true])
  else ({| cursorHideOrigin := w; cursorHidden := cursorHidden s |}, []).

Inductive call : Type :=
| ShowCursorAt (w : point_int)
| GuaranteeCursorShown (showCursor : bool)
| HideCursor (showCursor : bool) (w : point_int).

Definition exec (c : call) (s : state) : state * list mouse_call :=
  match c with
  | ShowCursorAt w => (showCursorAt w s, [])
  | GuaranteeCursorShown sc => guaranteeCursorShown sc s
  | HideCursor sc w => hideCursor sc w s
  end.

(** A sequence of calls: the final state and everything sent to the mouse
    source. *)
Fixpoint run (cs : list call) (s : state) : state * list mouse_call :=
  match cs with
  | [] => (s, [])
  | c :: cs' =>
      let (s1, out1) := exec c s in
      let (s2, out2) := run cs' s1 in
      (s2, out1 ++ out2)
  end.

End Component.

(** The argument of the last [enableUnboundedMouseMovement] of a trace. *)
Fixpoint last_unbounded (tr : list mouse_call) (before : bool) : bool :=
  match tr with
  | [] => before
  | enableUnboundedMouseMovement b :: tr' => last_unbounded tr' b
  | setScreenPosition _ :: tr' => last_unbounded tr' before
  end.

End FilterAnalysis.

(** ** Vocabulary of the binary64 specification *)

(** Neither an infinity nor a NaN, on the side of the specification of the
    binary64 operations. *)
Definition sf_finite (f : spec_float) : bool :=
  match f with
  | S754_zero _ | S754_finite _ _ _ => true
  | _ => false
  end.

(** ** Predicates of the further properties *)

(** The oscillator at phase [p] with the rotation of the rate [w]. *)
Definition at_phase (w p : R) (s : quadr_osc.state) : Prop :=
  quadr_osc.r s = sin p /\ quadr_osc.i s = - cos p /\
  quadr_osc.dr s = cos w /\ quadr_osc.di s = sin w.

(** A sequence of calls on an exponential-lag smoother. *)
Definition lag_run (checks : bool) (cs : list lag.call) (s : lag.state)
  : lag.state :=
  fold_left (fun acc c => lag.exec checks c acc) cs s.

(** The answer of [Surge::GUI::showCursor] a call of the overlay saw;
    [showCursorAt] does not ask. *)
Definition asks_show_cursor (c : FilterAnalysis.call) : option bool :=
  match c with
  | FilterAnalysis.ShowCursorAt _ => None
  | FilterAnalysis.GuaranteeCursorShown sc => Some sc
  | FilterAnalysis.HideCursor sc _ => Some sc
  end.


(** * Properties *)

(** ** Quadrature oscillator *)

Section QuadrOsc.

Import quadr_osc.

(** Renormalisation puts the phasor on the unit circle. *)
Lemma set_rate_norm2 (w : R) (s : state) :
  0 < norm2 s -> norm2 (set_rate w s) = 1.
Proof.
  intros Hpos. unfold norm2 in *. cbn.
  set (m := r s * r s + i s * i s) in *.
  assert (Hs : sqrt m * sqrt m = m) by (apply sqrt_sqrt; lra).
  assert (Hs0 : sqrt m <> 0).
  { intros E. rewrite E in Hs. lra. }
  replace (r s * (1 / sqrt m) * (r s * (1 / sqrt m)) +
           i s * (1 / sqrt m) * (i s * (1 / sqrt m)))
    with (m / (sqrt m * sqrt m)) by (unfold m; field; exact Hs0).
  rewrite Hs. field. lra.
Qed.

(** The rotation installed by [set_rate] has unit magnitude. *)
Lemma set_rate_rot2 (w : R) (s : state) : rot2 (set_rate w s) = 1.
Proof.
  unfold rot2. cbn. pose proof (sin2_cos2 w) as H.
  unfold Rsqr in H. lra.
Qed.

(** One step multiplies the squared magnitude by that of the rotation. *)
Lemma process_norm2 (s : state) : norm2 (process s) = rot2 s * norm2 s.
Proof. unfold norm2, rot2. cbn. ring. Qed.

Lemma process_rot2 (s : state) : rot2 (process s) = rot2 s.
Proof. reflexivity. Qed.

Lemma set_phase_norm2 (w : R) (s : state) : norm2 (set_phase w s) = 1.
Proof.
  unfold norm2. cbn. pose proof (sin2_cos2 w) as H.
  unfold Rsqr in H. lra.
Qed.

Lemma set_phase_rot2 (w : R) (s : state) : rot2 (set_phase w s) = rot2 s.
Proof. reflexivity. Qed.

Lemma exec_on_circle (c : call) (s : state) :
  on_circle s -> on_circle (exec c s).
Proof.
  intros [Hn Hr]. destruct c as [w | w | ]; cbn [exec]; split.
  - apply set_rate_norm2. lra.
  - apply set_rate_rot2.
  - apply set_phase_norm2.
  - rewrite set_phase_rot2. exact Hr.
  - rewrite process_norm2, Hn, Hr. ring.
  - rewrite process_rot2. exact Hr.
Qed.

Lemma run_on_circle (cs : list call) :
  forall s, on_circle s -> on_circle (run cs s).
Proof.
  induction cs as [| c cs IH]; intros s Hs; cbn.
  - exact Hs.
  - apply IH, exec_on_circle, Hs.
Qed.

Lemma iter_process_on_circle (t : nat) (s : state) :
  on_circle s -> on_circle (Nat.iter t process s).
Proof.
  intros Hs. induction t as [| t IH]; cbn.
  - exact Hs.
  - apply (exec_on_circle Process), IH.
Qed.

(** C3.  For every state whose phasor is not the origin and every rate [w]:
    [set_rate w] puts the phasor on the unit circle and installs a rotation
    of unit magnitude; a [process] step under a unit rotation keeps
    [r * r + i * i] unchanged; hence the phasor is on the unit circle after
    any number of [process] steps that follow the [set_rate], after any
    sequence of further calls ([set_rate], [set_phase], [process]), and after
    any number of steps that follow a [set_phase] on an oscillator whose
    rate has been set. *)
Theorem quadr_osc_unit_circle (s : state) (w : R) :
  0 < r s * r s + i s * i s ->
  let s1 := set_rate w s in
  r s1 * r s1 + i s1 * i s1 = 1 /\
  dr s1 = cos w /\ di s1 = sin w /\ dr s1 * dr s1 + di s1 * di s1 = 1 /\
  (forall s', dr s' * dr s' + di s' * di s' = 1 ->
     r (process s') * r (process s') + i (process s') * i (process s')
     = r s' * r s' + i s' * i s') /\
  (forall t, norm2 (Nat.iter t process s1) = 1) /\
  (forall cs, norm2 (run cs s1) = 1) /\
  (forall p t, norm2 (Nat.iter t process (set_phase p s1)) = 1).
Proof.
  intros Hpos s1.
  assert (Hc : on_circle s1).
  { split; [apply set_rate_norm2; exact Hpos | apply set_rate_rot2]. }
  destruct Hc as [Hn Hr].
  repeat split.
  - exact Hn.
  - exact Hr.
  - intros s' Hs'. fold (norm2 (process s')) (norm2 s') (rot2 s') in *.
    rewrite process_norm2, Hs'. ring.
  - intros t. apply iter_process_on_circle. split; assumption.
  - intros cs. apply run_on_circle. split; assumption.
  - intros p t. apply iter_process_on_circle.
    apply (exec_on_circle (SetPhase p)). split; assumption.
Qed.

(** C3 at the oscillator fresh from its constructor, with 3 and 4 left in the
    rotation fields, set to the rate 1/2 and advanced by five samples. *)
Lemma quadr_osc_unit_circle_witness :
  0 < r (create 3 4) * r (create 3 4) + i (create 3 4) * i (create 3 4) /\
  norm2 (Nat.iter 5 process (set_rate (1 / 2) (create 3 4))) = 1.
Proof.
  assert (H : 0 < r (create 3 4) * r (create 3 4)
                  + i (create 3 4) * i (create 3 4)) by (cbn; lra).
  split; [exact H |].
  exact (proj1 (proj2 (proj2 (proj2 (proj2 (proj2
           (quadr_osc_unit_circle (create 3 4) (1 / 2) H)))))) 5%nat).
Defined.

End QuadrOsc.

(** ** Linear-ramp smoother *)

Section Lipol.

Import lipol.

(** [process] only moves [v], by [dv]. *)
Lemma advance_always (k : nat) (s : state) :
  v (advance k s) = v s + INR k * dv s /\
  dv (advance k s) = dv s /\
  new_v (advance k s) = new_v s /\
  bs_inv (advance k s) = bs_inv s /\
  first_run (advance k s) = first_run s.
Proof.
  unfold advance. induction k as [| k IH].
  - cbn. repeat split. ring.
  - destruct IH as (Hv & Hdv & Hn & Hb & Hf).
    change (Nat.iter (S k) process s) with (process (Nat.iter k process s)).
    rewrite S_INR. remember (Nat.iter k process s) as sk eqn:E.
    unfold process. cbn [v dv new_v bs_inv first_run].
    rewrite Hv, Hdv, Hn, Hb, Hf. repeat split. ring.
Qed.

Lemma outputs_advance (k : nat) :
  forall s, outputs k s = map (fun j => v (advance j s)) (seq 1 k).
Proof.
  induction k as [| k IH]; intros s.
  - reflexivity.
  - cbn [outputs seq map]. f_equal.
    rewrite IH, <- (seq_shift k 1), map_map.
    apply map_ext. intros j. unfold advance.
    rewrite Nat.iter_succ_r. reflexivity.
Qed.

Lemma INR_to_nat (n : Z) : (0 <= n)%Z -> INR (Z.to_nat n) = IZR n.
Proof. intros Hn. rewrite INR_IZR_INZ, Z2Nat.id by exact Hn. reflexivity. Qed.

(** A block-size set to a positive [n], a target set outside the guarded
    first update: the ramp starts at the previous target and is linear. *)
Lemma ramp_value (checks : bool) (s0 : state) (n : Z) (T : R) (k : nat) :
  (0 < n)%Z ->
  checks && first_run s0 = false ->
  v (advance k (newValue checks T (setBlockSize n s0)))
  = lin_interp (new_v s0) T (INR k / IZR n).
Proof.
  intros Hn Hg.
  destruct (advance_always k (newValue checks T (setBlockSize n s0)))
    as (Hv & _).
  rewrite Hv. unfold newValue, setBlockSize, lin_interp.
  cbn [v dv new_v bs_inv first_run]. rewrite Hg.
  assert (IZR n <> 0) by (apply not_0_IZR; lia).
  field. assumption.
Qed.

(** Lists of reals are compared entry by entry. *)
Ltac list_of_reals :=
  repeat (f_equal; try lra).

(** C1, as amended.  Let the block size be set to a positive [n], then
    [newValue T] be called.  After exactly [n] calls of [process], [v] is
    [T].  When the call of [newValue] is not the guarded first update (the
    class is instantiated with [first_run_checks = false], or the first
    target has already been set), then after [k] calls of [process], for
    every [k] and so for every [k < n], [v] is the linear interpolation at
    position [k / n] between the previous target and [T], and these are the
    values read after the successive calls.  On the guarded
    first update there is no ramp: [v] is [T] after any number of calls.
    Concretely, a [lipol<T, false>] fresh from its constructor, with block
    size 4 and target 1, reads 1/4, 1/2, 3/4, 1 after the four calls. *)
Theorem lipol_ramp_outside_first_update
  (checks : bool) (s0 : state) (n : Z) (T : R) :
  (0 < n)%Z ->
  let s := newValue checks T (setBlockSize n s0) in
  v (advance (Z.to_nat n) s) = T /\
  (checks && first_run s0 = false ->
   forall k : nat,
     v (advance k s) = lin_interp (new_v s0) T (INR k / IZR n) /\
     outputs k s
     = map (fun j => lin_interp (new_v s0) T (INR j / IZR n)) (seq 1 k)) /\
  (checks && first_run s0 = true ->
   forall k : nat, v (advance k s) = T) /\
  (forall (BLOCK_SIZE : Z) (junk : state),
     let fresh := create false BLOCK_SIZE junk in
     v fresh = 0 /\
     outputs 4 (newValue false 1 (setBlockSize 4 fresh))
     = [1 / 4; 1 / 2; 3 / 4; 1]).
Proof.
  intros Hn s.
  assert (Hfirst : checks && first_run s0 = true ->
                   forall k : nat, v (advance k s) = T).
  { intros Hg k. destruct (advance_always k s) as (Hv & _). rewrite Hv.
    unfold s, newValue, setBlockSize. cbn [v dv new_v bs_inv first_run].
    rewrite Hg. ring. }
  assert (Hramp : checks && first_run s0 = false ->
                  forall k : nat,
                    v (advance k s) = lin_interp (new_v s0) T (INR k / IZR n)).
  { intros Hg k. apply ramp_value; assumption. }
  split; [| split; [| split; [exact Hfirst |]]].
  - destruct (checks && first_run s0) eqn:Hg.
    + apply Hfirst. reflexivity.
    + rewrite Hramp by reflexivity.
      rewrite INR_to_nat by lia. unfold lin_interp.
      assert (IZR n <> 0) by (apply not_0_IZR; lia).
      field. assumption.
  - intros Hg k. split; [apply Hramp, Hg |].
    rewrite outputs_advance. apply map_ext. intros j. apply Hramp, Hg.
  - intros BS junk fresh. split; [reflexivity |].
    cbn. list_of_reals.
Qed.

(** C1 as amended, at a default-instantiated smoother whose first target was
    0, with block size 4 and the new target 1. *)
Lemma lipol_ramp_outside_first_update_witness :
  let s0 := newValue true 0 (create true 32 (mk 0 0 0 0 false)) in
  let s := newValue true 1 (setBlockSize 4 s0) in
  (0 < 4)%Z /\ true && first_run s0 = false /\
  v (advance 3 s) = lin_interp (new_v s0) 1 (INR 3 / IZR 4) /\
  v (advance (Z.to_nat 4) s) = 1.
Proof.
  intros s0 s.
  assert (Hn : (0 < 4)%Z) by reflexivity.
  assert (Hg : true && first_run s0 = false) by reflexivity.
  split; [exact Hn |]. split; [exact Hg |].
  pose proof (lipol_ramp_outside_first_update true s0 4 1 Hn) as H.
  split; [exact (proj1 (proj1 (proj2 H) Hg 3%nat)) | exact (proj1 H)].
Defined.

(** C1 as stated fails on the default instantiation
    ([first_run_checks = true]): the smoother fresh from its constructor has
    [v = 0], block size 4 and target 1, and reads 1 after each of the four
    calls of [process], not 1/4, 1/2, 3/4, 1. *)
Lemma lipol_first_target_is_not_ramped :
  let fresh := setBlockSize 4 (create true 32 (mk 0 0 0 0 false)) in
  let s := newValue true 1 fresh in
  v fresh = 0 /\ new_v fresh = 0 /\
  outputs 4 s = [1; 1; 1; 1] /\
  outputs 4 s <> [1 / 4; 1 / 2; 3 / 4; 1] /\
  v (advance 1 s) <> lin_interp (new_v fresh) 1 (INR 1 / IZR 4).
Proof.
  cbn zeta. repeat split.
  - cbn. list_of_reals.
  - cbn. intros E. injection E as E _. lra.
  - unfold lin_interp. cbn. lra.
Qed.




End Lipol.

(** ** Exponential-lag smoother *)

Section Lag.

Import lag.

(** Both constructors establish [lpinv = 1 - lp], and no call breaks it. *)
Lemma reachable_coherent (checks : bool) (s : state) :
  reachable checks s -> coherent s.
Proof.
  induction 1 as [fr0 | lp0 fr0 | c s _ IH]; unfold coherent in *.
  - cbn. reflexivity.
  - cbn. reflexivity.
  - destruct c; cbn; try exact IH. reflexivity.
Qed.

(** [process] only moves [v]. *)
Lemma advance_frame (t : nat) (s : state) :
  target_v (advance t s) = target_v s /\
  lp (advance t s) = lp s /\
  lpinv (advance t s) = lpinv s /\
  first_run (advance t s) = first_run s.
Proof.
  unfold advance. induction t as [| t IH].
  - repeat split.
  - change (Nat.iter (S t) process s) with (process (Nat.iter t process s)).
    remember (Nat.iter t process s) as st eqn:E.
    unfold process. cbn [target_v lp lpinv first_run]. exact IH.
Qed.

Lemma advance_succ (t : nat) (s : state) :
  v (advance (S t) s)
  = v (advance t s) * lpinv s + target_v s * lp s.
Proof.
  destruct (advance_frame t s) as (Ht & Hl & Hi & _).
  unfold advance in *.
  change (Nat.iter (S t) process s) with (process (Nat.iter t process s)).
  remember (Nat.iter t process s) as st eqn:E.
  unfold process. cbn [v]. rewrite Ht, Hl, Hi. reflexivity.
Qed.

(** The signed distance to the target shrinks by the factor [1 - lp] per
    sample, whatever the rate. *)
Lemma advance_distance (t : nat) (s : state) :
  coherent s ->
  v (advance t s) - target_v s = (v s - target_v s) * (1 - lp s) ^ t.
Proof.
  intros Hc. induction t as [| t IH].
  - cbn. ring.
  - rewrite advance_succ, Hc. cbn [pow].
    replace (v (advance t s) * (1 - lp s) + target_v s * lp s - target_v s)
      with ((v (advance t s) - target_v s) * (1 - lp s)) by ring.
    rewrite IH. ring.
Qed.

(** C2, as amended.  In exact arithmetic, [T] being the real numbers: in
    every reachable state with rate [k = lp] in [[0, 1]] and target [T], one
    [process] yields [v * (1 - k) + T * k]; after [t] calls with the
    target untouched, [|v_t - T| = |v_0 - T| * (1 - k) ^ t]; and the sequence
    [v_t] moves monotonically towards [T] without crossing it, upwards when
    it starts below [T] and downwards when it starts above. *)
Theorem lag_process_geometric (checks : bool) (s : state) :
  reachable checks s ->
  0 <= lp s <= 1 ->
  let k := lp s in
  let T := target_v s in
  v (process s) = v s * (1 - k) + T * k /\
  (forall t, target_v (advance t s) = T) /\
  (forall t, Rabs (v (advance t s) - T) = Rabs (v s - T) * (1 - k) ^ t) /\
  (v s <= T -> forall t, v (advance t s) <= v (advance (S t) s) <= T) /\
  (T <= v s -> forall t, T <= v (advance (S t) s) <= v (advance t s)).
Proof.
  intros Hr Hk k T. pose proof (reachable_coherent checks s Hr) as Hc.
  assert (Hpow : forall t, 0 <= (1 - k) ^ t).
  { intros t. apply pow_le. unfold k. lra. }
  assert (Hstep : forall t,
            v (advance (S t) s) = v (advance t s) + k * (T - v (advance t s))).
  { intros t. rewrite advance_succ, Hc. unfold k, T. ring. }
  repeat split.
  - cbn. rewrite Hc. reflexivity.
  - intros t. apply advance_frame.
  - intros t. unfold T, k. rewrite advance_distance by exact Hc.
    rewrite Rabs_mult. f_equal. apply Rabs_pos_eq. apply Hpow.
  - pose proof (advance_distance t s Hc) as Hd. fold k T in Hd.
    pose proof (Hpow t) as Hp. rewrite Hstep.
    assert (v (advance t s) <= T) by nra. unfold k in *. nra.
  - pose proof (advance_distance (S t) s Hc) as Hd. fold k T in Hd.
    pose proof (Hpow (S t)) as Hp. nra.
  - pose proof (advance_distance (S t) s Hc) as Hd. fold k T in Hd.
    pose proof (Hpow (S t)) as Hp. nra.
  - pose proof (advance_distance t s Hc) as Hd. fold k T in Hd.
    pose proof (Hpow t) as Hp. rewrite Hstep.
    assert (T <= v (advance t s)) by nra. unfold k in *. nra.
Qed.

(** C2 at a smoother built with the rate 1/10, first target 0, then
    target 1. *)
Lemma lag_process_geometric_witness :
  let s := newValue true 1 (newValue true 0 (create_rate true (1 / 10) false)) in
  reachable true s /\ 0 <= lp s <= 1 /\
  Rabs (v (advance 2 s) - target_v s)
  = Rabs (v s - target_v s) * (1 - lp s) ^ 2.
Proof.
  intros s.
  assert (Hr : reachable true s).
  { apply (reach_exec true (NewValue 1)), (reach_exec true (NewValue 0)).
    apply reach_create_rate. }
  assert (Hk : 0 <= lp s <= 1) by (cbn; lra).
  split; [exact Hr |]. split; [exact Hk |].
  exact (proj1 (proj2 (proj2 (lag_process_geometric true s Hr Hk))) 2%nat).
Defined.

(** C5, as amended.  Outside the guarded first update (the class is
    instantiated with [first_run_checks = false], or the first-update flag is
    already cleared) [newValue f] leaves [v] unchanged and changes only the
    stored target.  On the guarded first update it also moves [v] to [f] and
    clears the flag.  Whatever the state, any call of [newValue] after the
    first one leaves [v] unchanged. *)
Theorem lag_newValue_frame (checks : bool) (f : R) (s : state) :
  (checks && first_run s = false ->
     v (newValue checks f s) = v s /\
     newValue checks f s = mk (v s) f (first_run s) (lp s) (lpinv s)) /\
  (checks && first_run s = true ->
     newValue checks f s = mk f f false (lp s) (lpinv s)) /\
  (forall g : R,
     v (newValue checks g (newValue checks f s)) = v (newValue checks f s)).
Proof.
  unfold newValue. cbn [v first_run].
  destruct checks, (first_run s); cbn; repeat split; intros; try discriminate;
    reflexivity.
Qed.

(** C5 as amended, at the default-instantiated smoother: its second call of
    [newValue], and its first. *)
Lemma lag_newValue_frame_witness :
  let s := newValue true 0 (create true false) in
  true && first_run s = false /\
  v (newValue true 1 s) = v s /\
  true && first_run (create true false) = true /\
  newValue true 1 (create true false)
  = mk 1 1 false (lp (create true false)) (lpinv (create true false)).
Proof.
  intros s.
  assert (H1 : true && first_run s = false) by reflexivity.
  assert (H2 : true && first_run (create true false) = true) by reflexivity.
  split; [exact H1 |].
  split; [exact (proj1 (proj1 (lag_newValue_frame true 1 s) H1)) |].
  split; [exact H2 |].
  exact (proj1 (proj2 (lag_newValue_frame true 1 (create true false))) H2).
Defined.

(** C5 as stated fails on the default instantiation
    ([first_run_checks = true]): the state right after the constructor is
    reachable, has [v = 0], and [newValue 1] moves [v] to 1. *)
Lemma lag_first_newValue_moves_current :
  let s := create true false in
  reachable true s /\ v s = 0 /\ v (newValue true 1 s) = 1 /\
  v (newValue true 1 s) <> v s.
Proof.
  cbn zeta. split; [apply reach_create |]. cbn. repeat split. lra.
Qed.

End Lag.

(** ** Exponential-lag smoother: the instance [lag<double>] *)

Section LagDouble.

Import lag_double.

(** C2 as stated fails on [lag<double>], where every operation rounds.
    With the rate [0.1] (the [double] nearest to it, [1 / 10]) a smoother
    resting on its target [0.3] leaves it at the first [process], upwards:
    the distance, 0 at the start, does not stay [0 * (1 - k)], and the value
    does not approach the target.  With the rate [0.5], from 0 towards 1,
    the value is off the target after 53 calls and on it after 54, where
    the stated distance is [2 ^ -54]. *)
Lemma lag_double_is_not_exact :
  let k := (1 / 10)%float in
  let T := (3 / 10)%float in
  let rest := startValue true T (create_rate true k false) in
  let half :=
    newValue true 1 (newValue true 0 (create_rate true 0.5 false)) in
  (v rest = T /\ target_v rest = T /\
   v (process rest) <> target_v rest /\
   (target_v rest <? v (process rest))%float = true) /\
  (v half = 0%float /\ target_v half = 1%float /\ lp half = 0.5%float /\
   v (advance 53 half) <> target_v half /\
   v (advance 54 half) = target_v half).
Proof.
  cbn zeta. split; split; try reflexivity.
  - split; [reflexivity |]. split; [| vm_compute; reflexivity].
    intros E.
    apply (f_equal (fun z => PrimFloat.eqb z (3 / 10)%float)) in E.
    vm_compute in E. discriminate E.
  - split; [reflexivity |]. split; [reflexivity |].
    split; [| vm_compute; reflexivity].
    intros E.
    apply (f_equal (fun z => PrimFloat.eqb z 1%float)) in E.
    vm_compute in E. discriminate E.
Qed.

End LagDouble.

(** ** Interpolation kernel *)

Section CubicIpol.

(** The error of the kernel on the samples of a cubic, as a polynomial in
    [mu]: it vanishes at 0 and at 1. *)
Lemma cubic_ipol_error (c0 c1 c2 c3 mu : R) :
  let p := cubic_poly c0 c1 c2 c3 in
  cubic_ipol (p (-1)) (p 0) (p 1) (p 2) mu - p mu
  = mu * (mu - 1) * ((2 * c1 + 2 * c2 + 7 * c3) * mu - (c1 + 2 * c3)).
Proof. unfold cubic_ipol, cubic_poly. cbn zeta. ring. Qed.

(** C6, as amended.  On the samples [p(-1), p(0), p(1), p(2)] of a cubic
    polynomial [p] the kernel returns [p(0)] at [mu = 0] and [p(1)] at
    [mu = 1]; in between it differs from [p] by
    [mu * (mu - 1) * ((2 c1 + 2 c2 + 7 c3) mu - (c1 + 2 c3))], so it
    reproduces [p] on the whole of [[0, 1]] exactly when the coefficients of
    [p] satisfy [c1 = -2 c3] and [2 c2 = -3 c3]: every constant polynomial
    is reproduced, a polynomial with a linear term and no cubic term is
    not. *)
Theorem cubic_ipol_on_cubic_samples (c0 c1 c2 c3 : R) :
  let p := cubic_poly c0 c1 c2 c3 in
  let kernel := cubic_ipol (p (-1)) (p 0) (p 1) (p 2) in
  kernel 0 = p 0 /\
  kernel 1 = p 1 /\
  (forall mu,
     kernel mu - p mu
     = mu * (mu - 1) * ((2 * c1 + 2 * c2 + 7 * c3) * mu - (c1 + 2 * c3))) /\
  ((forall mu, 0 <= mu <= 1 -> kernel mu = p mu)
   <-> (c1 = -2 * c3 /\ 2 * c2 = -3 * c3)).
Proof.
  intros p kernel.
  assert (E : forall mu,
             kernel mu - p mu
             = mu * (mu - 1)
               * ((2 * c1 + 2 * c2 + 7 * c3) * mu - (c1 + 2 * c3))).
  { intros mu. apply cubic_ipol_error. }
  split; [| split; [| split; [exact E | split]]].
  - pose proof (E 0). lra.
  - pose proof (E 1). lra.
  - intros H.
    pose proof (E (1 / 2)) as E2. pose proof (E (1 / 4)) as E4.
    rewrite (H (1 / 2)) in E2 by lra. rewrite (H (1 / 4)) in E4 by lra.
    lra.
  - intros [H1 H2] mu _. pose proof (E mu) as Emu.
    replace ((2 * c1 + 2 * c2 + 7 * c3) * mu - (c1 + 2 * c3)) with 0 in Emu
      by (subst c1; nra).
    lra.
Qed.

(** C6 as stated fails already for a straight line and for the pure cube:
    on the samples -1, 0, 1, 2 of [p(x) = x] the kernel reads 11/32 at
    [mu = 1/4], and on the samples -1, 0, 1, 8 of [p(x) = x^3] it reads -1/4
    at [mu = 1/2]. *)
Lemma cubic_ipol_does_not_reproduce_cubics :
  let line := cubic_poly 0 1 0 0 in
  let cube := cubic_poly 0 0 0 1 in
  0 <= 1 / 4 <= 1 /\ 0 <= 1 / 2 <= 1 /\
  cubic_ipol (line (-1)) (line 0) (line 1) (line 2) (1 / 4) = 11 / 32 /\
  cubic_ipol (line (-1)) (line 0) (line 1) (line 2) (1 / 4) <> line (1 / 4) /\
  cubic_ipol (cube (-1)) (cube 0) (cube 1) (cube 2) (1 / 2) = - 1 / 4 /\
  cubic_ipol (cube (-1)) (cube 0) (cube 1) (cube 2) (1 / 2) <> cube (1 / 2).
Proof.
  unfold cubic_ipol, cubic_poly. cbn zeta. repeat split; lra.
Qed.

End CubicIpol.

(** ** Fast tanh approximations *)

Section FastTanh.

(** The three constants written as quotients of [int] literals are zero. *)
Lemma int_quot_2_3 : int_quot 2 3 = 0.
Proof. reflexivity. Qed.

Lemma Rabs_square (x : R) : Rabs x * Rabs x = x * x.
Proof. unfold Rabs. destruct (Rcase_abs x); ring. Qed.

(** The sign as the code selects it, next to the sign proper: they differ
    at 0 only, where the other factor vanishes. *)
Lemma sign_select (x y : R) :
  (x = 0 -> y = 0) ->
  (if Rlt_dec 0 x then 1 else -1) * y = sign x * y.
Proof.
  intros H0. unfold sign.
  destruct (Rlt_dec 0 x) as [Hp | Hnp]; [reflexivity |].
  destruct (Rlt_dec x 0) as [Hn | Hnn]; [reflexivity |].
  rewrite H0 by lra. ring.
Qed.

(** C7.  In both overloads of [tanh_fast] the constant [a], written [2 / 3],
    is 0; the denominator is [1 + |in| + in * in], the cubic term being
    absent; and [tanh_fast in] is [sign in * (1 - 1 / (1 + |in| + in * in))]:
    for the [double] overload as it stands, for the [float] overload with
    the reciprocal instruction taken as the exact reciprocal. *)
Theorem tanh_fast_cubic_term_vanishes (inp : R) :
  int_quot 2 3 = 0 /\
  (let x := Rabs inp in
   1 + x + x * x + int_quot 2 3 * x * (x * x) = 1 + Rabs inp + inp * inp) /\
  tanh_fast inp = sign inp * (1 - 1 / (1 + Rabs inp + inp * inp)) /\
  (forall rcp_ss : R -> R,
     tanh_fast_float rcp_ss inp
     = (if Rlt_dec 0 inp then 1 else -1)
       * (1 - rcp_ss (1 + Rabs inp + inp * inp))) /\
  tanh_fast_float (fun d => 1 / d) inp
  = sign inp * (1 - 1 / (1 + Rabs inp + inp * inp)).
Proof.
  assert (D : 1 + Rabs inp + Rabs inp * Rabs inp
              + int_quot 2 3 * Rabs inp * (Rabs inp * Rabs inp)
              = 1 + Rabs inp + inp * inp).
  { rewrite int_quot_2_3, Rabs_square. ring. }
  assert (Z0 : inp = 0 -> 1 - 1 / (1 + Rabs inp + inp * inp) = 0).
  { intros ->. rewrite Rabs_R0. field. }
  split; [exact int_quot_2_3 |]. split; [exact D |].
  split; [| split].
  - unfold tanh_fast. cbn zeta. rewrite D. apply sign_select, Z0.
  - intros rcp_ss. unfold tanh_fast_float. cbn zeta. rewrite D. reflexivity.
  - unfold tanh_fast_float. cbn zeta. rewrite D. apply sign_select, Z0.
Qed.

End FastTanh.

(** ** [tanh_faster1] on binary64 *)

Section Binary64.

Lemma SFcompare_refl_finite (s : bool) (m : positive) (e : Z) :
  SFcompare (S754_finite s m e) (S754_finite s m e) = Some Eq.
Proof.
  cbn. rewrite Z.compare_refl.
  assert (H : Pos.compare_cont Eq m m = Eq) by apply Pos.compare_refl.
  rewrite H. destruct s; reflexivity.
Qed.

(** [is_finite] of the machine number, read on its specification. *)
Lemma is_finite_spec (x : float) :
  PrimFloat.is_finite x = sf_finite (Prim2SF x).
Proof.
  unfold PrimFloat.is_finite, is_nan, is_infinity.
  rewrite !FloatAxioms.eqb_spec, abs_spec.
  change (Prim2SF infinity) with (S754_infinity false).
  destruct (Prim2SF x) as [s | s | | s m e]; try reflexivity.
  - destruct s; reflexivity.
  - cbn [SFabs sf_finite]. unfold SFeqb. rewrite !SFcompare_refl_finite.
    reflexivity.
Qed.

(** The mantissa of [1.0] is [2 ^ 52]: the product of the mantissas has 52
    more digits, which the rounding shifts out again, all of them zero. *)
Lemma digits_shift52 (m : positive) :
  (Zpos (digits2_pos (4503599627370496 * m))
   = Zpos (digits2_pos m) + 52)%Z.
Proof.
  cbn [Pos.mul]. cbn [digits2_pos]. repeat rewrite Pos2Z.inj_succ. lia.
Qed.

Lemma shr_52 (m : positive) :
  SpecFloat.iter_pos shr_1 52
    (Build_shr_record (Zpos (4503599627370496 * m)) false false)
  = Build_shr_record (Zpos m) false false.
Proof. reflexivity. Qed.

Lemma round_one_times (s : bool) (m : positive) (e : Z) :
  SpecFloat.bounded prec emax m e = true ->
  binary_round_aux prec emax s (Zpos (4503599627370496 * m)) (-52 + e)
    loc_Exact
  = S754_finite s m e.
Proof.
  intros Hb. unfold SpecFloat.bounded in Hb. apply andb_prop in Hb.
  destruct Hb as [Hc He].
  unfold canonical_mantissa in Hc. apply Z.eqb_eq in Hc.
  unfold binary_round_aux, shr_fexp.
  unfold Zdigits2 at 1. rewrite digits_shift52.
  replace (Z.pos (digits2_pos m) + 52 + (-52 + e))%Z
    with (Z.pos (digits2_pos m) + e)%Z by lia.
  rewrite Hc. replace (e - (-52 + e))%Z with 52%Z by lia.
  unfold shr at 1.
  change (shr_record_of_loc (Z.pos (4503599627370496 * m)) loc_Exact)
    with (Build_shr_record (Z.pos (4503599627370496 * m)) false false).
  rewrite shr_52.
  cbn [shr_m loc_of_shr_record round_nearest_even].
  replace (-52 + e + 52)%Z with e by lia.
  unfold Zdigits2. rewrite Hc, Z.sub_diag.
  cbn [shr shr_record_of_loc shr_m].
  rewrite He. reflexivity.
Qed.

(** [1 * x] is [x], bit for bit. *)
Lemma one_mul (x : float) : (1 * x)%float = x.
Proof.
  apply Prim2SF_inj. rewrite mul_spec.
  change (Prim2SF 1) with (S754_finite false 4503599627370496 (-52)).
  pose proof (Prim2SF_valid x) as Hv. revert Hv.
  destruct (Prim2SF x) as [s | s | | s m e]; intros Hv; try reflexivity.
  cbn [SpecFloat.valid_binary] in Hv. unfold SF64mul, SFmul.
  change (xorb false s) with s.
  apply round_one_times. exact Hv.
Qed.

(** A finite number times [+0.0] is a zero; an infinity or a NaN times
    [+0.0] is NaN. *)
Lemma mul_zero_finite (x : float) :
  sf_finite (Prim2SF x) = true ->
  exists s, Prim2SF (x * 0)%float = S754_zero s.
Proof.
  intros H. rewrite mul_spec. change (Prim2SF 0) with (S754_zero false).
  destruct (Prim2SF x) as [s | s | | s m e]; try discriminate H.
  - exists (xorb s false). reflexivity.
  - exists (xorb s false). reflexivity.
Qed.

Lemma mul_zero_not_finite (x : float) :
  sf_finite (Prim2SF x) = false -> (x * 0)%float = nan.
Proof.
  intros H. apply Prim2SF_inj. rewrite mul_spec.
  change (Prim2SF 0) with (S754_zero false).
  change (Prim2SF nan) with S754_nan.
  destruct (Prim2SF x) as [s | s | | s m e]; try discriminate H; reflexivity.
Qed.

Lemma one_add_zero (z : float) (s : bool) :
  Prim2SF z = S754_zero s -> (1 + z)%float = 1%float.
Proof.
  intros H. apply Prim2SF_inj. rewrite add_spec, H. reflexivity.
Qed.

(** A square that is finite is the square of a finite number. *)
Lemma sf_finite_square (x : float) :
  sf_finite (Prim2SF (x * x)%float) = true -> sf_finite (Prim2SF x) = true.
Proof.
  rewrite mul_spec. destruct (Prim2SF x) as [s | s | | s m e]; cbn; auto.
Qed.

Lemma add_nan (z : float) : (z + nan)%float = nan.
Proof.
  apply Prim2SF_inj. rewrite add_spec. change (Prim2SF nan) with S754_nan.
  destruct (Prim2SF z) as [s | s | | s m e]; reflexivity.
Qed.

Lemma nan_mul (z : float) : (nan * z)%float = nan.
Proof.
  apply Prim2SF_inj. rewrite mul_spec. change (Prim2SF nan) with S754_nan.
  reflexivity.
Qed.

(** C10, as amended.  The constants [a = -1 / 3] and [b = 2 / 15] of
    [tanh_faster1] are both [+0.0].  For every [double] [x] whose fourth
    power, computed as [(x * x) * (x * x)], is finite, the polynomial factor
    [y] is 1 and the function returns [x], bit for bit; for every other [x]
    (the square or its square overflows, [x] is an infinity or a NaN) it
    returns NaN.  The fourth power is finite at [2 ^ 255] and infinite at
    [2 ^ 256]. *)
Theorem tanh_faster1_identity_while_finite (x : float) :
  int_quot_double (-1) 3 = 0%float /\
  int_quot_double 2 15 = 0%float /\
  tanh_faster1 x
  = (if PrimFloat.is_finite (x * x * (x * x))%float then x else nan) /\
  PrimFloat.is_finite (0x1p255 * 0x1p255 * (0x1p255 * 0x1p255))%float = true /\
  PrimFloat.is_finite (0x1p256 * 0x1p256 * (0x1p256 * 0x1p256))%float = false.
Proof.
  split; [reflexivity |]. split; [reflexivity |].
  split; [| split; vm_compute; reflexivity].
  unfold tanh_faster1.
  change (int_quot_double (-1) 3) with 0%float.
  change (int_quot_double 2 15) with 0%float.
  cbn zeta. rewrite is_finite_spec.
  destruct (sf_finite (Prim2SF (x * x * (x * x))%float)) eqn:H4.
  - pose proof (sf_finite_square _ H4) as H2.
    destruct (mul_zero_finite _ H2) as [s2 E2].
    destruct (mul_zero_finite _ H4) as [s4 E4].
    rewrite (one_add_zero _ _ E2), (one_add_zero _ _ E4).
    apply one_mul.
  - rewrite (mul_zero_not_finite _ H4), add_nan. apply nan_mul.
Qed.

(** C10 as stated fails at [x = 2 ^ 260], about [1.85e78]: the square is
    [2 ^ 520], its square overflows to infinity, infinity times the
    constant 0 is NaN, and the function returns NaN, not [x]. *)
Lemma tanh_faster1_is_not_identity :
  (0x1p260 * 0x1p260)%float = 0x1p520%float /\
  (0x1p520 * 0x1p520)%float = infinity /\
  (infinity * int_quot_double 2 15)%float = nan /\
  tanh_faster1 0x1p260%float = nan /\
  tanh_faster1 0x1p260%float <> 0x1p260%float.
Proof.
  repeat split; try (vm_compute; reflexivity).
  intros E. apply (f_equal is_nan) in E. vm_compute in E. discriminate E.
Qed.

End Binary64.

(** ** Window functions *)

Section Windows.

(** C9.  For every index [i] and length [n] with [i >= n], [hanning i n]
    and [hamming i n] are exactly 0. *)
Theorem windows_zero_from_length (i n : Z) :
  (i >= n)%Z -> hanning i n = 0 /\ hamming i n = 0.
Proof.
  intros H. unfold hanning, hamming.
  replace (i >=? n)%Z with true by (symmetry; apply Z.geb_le; lia).
  split; reflexivity.
Qed.

(** C9 at the index one past the end of a window of length 5, and at index 7
    of a window of length 4. *)
Lemma windows_zero_from_length_witness :
  (5 >= 5)%Z /\ hanning 5 5 = 0 /\ hamming 5 5 = 0 /\
  (7 >= 4)%Z /\ hanning 7 4 = 0 /\ hamming 7 4 = 0.
Proof.
  assert (H5 : (5 >= 5)%Z) by (intros E; discriminate E).
  assert (H7 : (7 >= 4)%Z) by (intros E; discriminate E).
  split; [exact H5 |].
  split; [exact (proj1 (windows_zero_from_length 5 5 H5)) |].
  split; [exact (proj2 (windows_zero_from_length 5 5 H5)) |].
  split; [exact H7 |].
  split; [exact (proj1 (windows_zero_from_length 7 4 H7)) |].
  exact (proj2 (windows_zero_from_length 7 4 H7)).
Defined.

End Windows.

(** ** Amplitude curves *)

Section AmplitudeCurves.

Lemma limit_range_inside (x low high : R) :
  low <= x <= high -> limit_range x low high = x.
Proof.
  intros [Hl Hh]. unfold limit_range.
  rewrite Rmax_left by exact Hl. apply Rmin_left, Hh.
Qed.

Lemma limit_range_below (x low high : R) :
  x <= low <= high -> limit_range x low high = low.
Proof.
  intros [Hl Hh]. unfold limit_range.
  rewrite Rmax_right by exact Hl. apply Rmin_left, Hh.
Qed.

Lemma amp_to_linear_nonneg (x : R) : 0 <= x -> amp_to_linear x = x * x * x.
Proof. intros H. unfold amp_to_linear. rewrite Rmax_right by exact H. ring. Qed.

(** The cube root undoes the cube on positive numbers. *)
Lemma powf_third_cube (x : R) : 0 < x -> powf (x * x * x) (1 / 3) = x.
Proof.
  intros H. unfold powf.
  replace (x * x * x) with (x ^ 3) by ring.
  rewrite <- Rpower_pow by exact H. rewrite Rpower_mult.
  replace (INR 3 * (1 / 3)) with 1 by (simpl; lra).
  apply Rpower_1, H.
Qed.

(** The cube root of the epsilon of [linear_to_amp] is below 1/2000. *)
Lemma powf_third_epsilon :
  0 < powf (1 / 10 ^ 10) (1 / 3) <= 1 / 2000 /\
  powf (1 / 10 ^ 10) (1 / 3) * powf (1 / 10 ^ 10) (1 / 3)
  * powf (1 / 10 ^ 10) (1 / 3) = 1 / 10 ^ 10.
Proof.
  assert (He : 0 < 1 / 10 ^ 10) by lra.
  split; [split |].
  - unfold powf, Rpower. apply exp_pos.
  - rewrite <- (powf_third_cube (1 / 2000)) by lra. unfold powf.
    apply Rle_Rpower_l; lra.
  - unfold powf. rewrite <- !Rpower_plus.
    replace (1 / 3 + 1 / 3 + 1 / 3) with 1 by lra.
    apply Rpower_1, He.
Qed.

Lemma ln_le (x y : R) : 0 < x -> x <= y -> ln x <= ln y.
Proof.
  intros Hx [Hlt | ->]; [left; apply ln_increasing; assumption | right; reflexivity].
Qed.

Lemma ln_2_pos : 0 < ln 2.
Proof. pose proof ln_lt_2. lra. Qed.

(** Between 1/1000 and 2 the decibel value stays inside the clamp of
    [amp_to_db]: [1000 ^ 3 <= 2 ^ 32]. *)
Lemma log2_mid_range (x : R) :
  1 / 1000 <= x <= 2 -> -192 <= 18 * log2 x <= 96.
Proof.
  intros [Hl Hh]. pose proof ln_2_pos as H2. unfold log2.
  assert (Hup : ln x <= ln 2) by (apply ln_le; lra).
  assert (Hlo : ln (1 / 1000) <= ln x) by (apply ln_le; lra).
  assert (H1000 : 3 * ln 1000 <= 32 * ln 2).
  { replace 3 with (INR 3) by (simpl; lra).
    replace 32 with (INR 32) by (simpl; lra).
    rewrite <- !ln_pow by lra. apply ln_le; lra. }
  assert (Hinv : ln (1 / 1000) = - ln 1000).
  { replace (1 / 1000) with (/ 1000) by lra. apply ln_Rinv. lra. }
  rewrite Hinv in Hlo.
  split.
  - apply Rmult_le_reg_r with (ln 2); [exact H2 |].
    replace (18 * (ln x / ln 2) * ln 2) with (18 * ln x) by (field; lra).
    lra.
  - apply Rmult_le_reg_r with (ln 2); [exact H2 |].
    replace (18 * (ln x / ln 2) * ln 2) with (18 * ln x) by (field; lra).
    lra.
Qed.

Lemma powf_2_log2 (x : R) : 0 < x -> powf 2 (18 * log2 x / 18) = x.
Proof.
  intros H. pose proof ln_2_pos as H2. unfold powf, Rpower, log2.
  replace (18 * (ln x / ln 2) / 18 * ln 2) with (ln x) by (field; lra).
  apply exp_ln, H.
Qed.

(** C8.  In exact arithmetic: for every [x] in [[0, 1]],
    [linear_to_amp (amp_to_linear x)] is within 1/2000 of [x], and equal to
    [x] as soon as the cube of [x] reaches the epsilon [1e-10] of
    [linear_to_amp]; for every [y] in the mid-range [[1/1000, 2]], which
    stays clear of the clamp of [amp_to_db] to [[-192, 96]] and of the clamp
    of [db_to_amp] to [[0, 2]], [db_to_amp (amp_to_db y)] is [y]. *)
Theorem amplitude_round_trips (x y : R) :
  0 <= x <= 1 ->
  1 / 1000 <= y <= 2 ->
  Rabs (linear_to_amp (amp_to_linear x) - x) <= 1 / 2000 /\
  (1 / 10 ^ 10 <= x * x * x -> linear_to_amp (amp_to_linear x) = x) /\
  -192 <= amp_to_db y <= 96 /\
  0 <= db_to_amp (amp_to_db y) <= 2 /\
  db_to_amp (amp_to_db y) = y /\
  Rabs (db_to_amp (amp_to_db y) - y) <= 1 / 2000.
Proof.
  intros Hx Hy.
  assert (Hexact : 1 / 10 ^ 10 <= x * x * x ->
                   linear_to_amp (amp_to_linear x) = x).
  { intros He. unfold linear_to_amp. rewrite amp_to_linear_nonneg by lra.
    assert (0 < x) by nra.
    rewrite limit_range_inside by nra.
    apply powf_third_cube. assumption. }
  assert (Hdb : amp_to_db y = 18 * log2 y).
  { unfold amp_to_db. apply limit_range_inside, log2_mid_range, Hy. }
  assert (Hback : db_to_amp (amp_to_db y) = y).
  { unfold db_to_amp. rewrite Hdb, powf_2_log2 by lra.
    apply limit_range_inside. lra. }
  split; [| split; [exact Hexact |]].
  - destruct (Rle_lt_dec (1 / 10 ^ 10) (x * x * x)) as [He | He].
    + rewrite Hexact by exact He.
      replace (x - x) with 0 by ring. rewrite Rabs_R0. lra.
    + unfold linear_to_amp. rewrite amp_to_linear_nonneg by lra.
      rewrite limit_range_below by lra.
      destruct powf_third_epsilon as ([Hpos Hle] & Hcube).
      set (e := powf (1 / 10 ^ 10) (1 / 3)) in *.
      assert (x <= e).
      { destruct (Rle_lt_dec x e) as [Hxe | Hxe]; [exact Hxe |].
        exfalso.
        assert (e * e * e < x * x * x).
        { assert (e * e < x * x) by nra. nra. }
        lra. }
      rewrite Rabs_pos_eq by lra. lra.
  - rewrite Hback, Hdb. split; [apply log2_mid_range, Hy |].
    split; [lra |]. split; [reflexivity |].
    replace (y - y) with 0 by ring. rewrite Rabs_R0. lra.
Qed.

(** C8 at the amplitude 1/2 and at the gain 1. *)
Lemma amplitude_round_trips_witness :
  0 <= 1 / 2 <= 1 /\ 1 / 1000 <= 1 <= 2 /\
  Rabs (linear_to_amp (amp_to_linear (1 / 2)) - 1 / 2) <= 1 / 2000 /\
  db_to_amp (amp_to_db 1) = 1.
Proof.
  assert (Hx : 0 <= 1 / 2 <= 1) by lra.
  assert (Hy : 1 / 1000 <= 1 <= 2) by lra.
  split; [exact Hx |]. split; [exact Hy |].
  pose proof (amplitude_round_trips (1 / 2) 1 Hx Hy) as H.
  split; [exact (proj1 H) |].
  exact (proj1 (proj2 (proj2 (proj2 (proj2 H))))).
Defined.

End AmplitudeCurves.

(** * Further properties of the code *)

(** ** Quadrature oscillator: the trajectory *)

Section QuadrOscTrajectory.

Import quadr_osc.

Lemma process_at_phase (w p : R) (s : state) :
  at_phase w p s -> at_phase w (p + w) (process s).
Proof.
  intros (Hr & Hi & Hdr & Hdi). unfold at_phase, process.
  cbn [r i dr di]. rewrite Hr, Hi, Hdr, Hdi, sin_plus, cos_plus.
  repeat split; ring.
Qed.

Lemma iter_process_at_phase (w p : R) (t : nat) (s : state) :
  at_phase w p s -> at_phase w (p + INR t * w) (Nat.iter t process s).
Proof.
  intros Hs. induction t as [| t IH].
  - cbn [Nat.iter nat_rect INR]. replace (p + 0 * w) with p by ring. exact Hs.
  - change (Nat.iter (S t) process s) with (process (Nat.iter t process s)).
    rewrite S_INR. replace (p + (INR t + 1) * w) with (p + INR t * w + w) by ring.
    apply process_at_phase, IH.
Qed.

(** [set_rate] keeps a phasor that is on the unit circle where it is. *)
Lemma set_rate_at_phase (w w' p : R) (s : state) :
  at_phase w p s -> at_phase w' p (set_rate w' s).
Proof.
  intros (Hr & Hi & _ & _). unfold at_phase, set_rate. cbn [r i dr di].
  assert (Hn : r s * r s + i s * i s = 1).
  { rewrite Hr, Hi. pose proof (sin2_cos2 p) as H. unfold Rsqr in H. lra. }
  rewrite Hn, sqrt_1, Hr, Hi. repeat split; field.
Qed.

Lemma set_phase_at_phase (w p p' : R) (s : state) :
  at_phase w p s -> at_phase w p' (set_phase p' s).
Proof.
  intros (_ & _ & Hdr & Hdi). unfold at_phase, set_phase. cbn [r i dr di].
  repeat split; assumption.
Qed.

Lemma create_set_rate_at_phase (w dr0 di0 : R) :
  at_phase w 0 (set_rate w (create dr0 di0)).
Proof.
  unfold at_phase, set_rate, create. cbn [r i dr di].
  replace (0 * 0 + -1 * -1) with 1 by ring.
  rewrite sqrt_1, sin_0, cos_0. repeat split; field.
Qed.

(** X1.  The oscillator is a sine and cosine generator: [t] samples after the
    phase was set to [p] on an oscillator of rate [w], it holds
    [(sin (p + t w), - cos (p + t w))]; the constructor starts it at phase
    0; the order of [set_rate] and [set_phase] does not matter. *)
Theorem quadr_osc_trajectory (s : state) (w p : R) (t : nat) :
  let after_phase := Nat.iter t process (set_phase p (set_rate w s)) in
  let after_rate := Nat.iter t process (set_rate w (set_phase p s)) in
  (r after_phase = sin (p + INR t * w) /\
   i after_phase = - cos (p + INR t * w)) /\
  after_rate = after_phase /\
  (forall dr0 di0 : R,
     let fresh := Nat.iter t process (set_rate w (create dr0 di0)) in
     r fresh = sin (INR t * w) /\ i fresh = - cos (INR t * w)).
Proof.
  intros after_phase after_rate.
  assert (H1 : at_phase w p (set_phase p (set_rate w s))).
  { unfold at_phase. cbn. repeat split. }
  assert (H2 : set_rate w (set_phase p s) = set_phase p (set_rate w s)).
  { unfold set_rate, set_phase. cbn [r i dr di].
    assert (Hn : sin p * sin p + - cos p * - cos p = 1).
    { pose proof (sin2_cos2 p) as H. unfold Rsqr in H. lra. }
    rewrite Hn, sqrt_1. f_equal; field. }
  split; [| split].
  - destruct (iter_process_at_phase w p t _ H1) as (Hr & Hi & _).
    split; assumption.
  - unfold after_rate, after_phase. rewrite H2. reflexivity.
  - intros dr0 di0 fresh.
    destruct (iter_process_at_phase w 0 t _ (create_set_rate_at_phase w dr0 di0))
      as (Hr & Hi & _).
    unfold fresh. rewrite Hr, Hi. rewrite Rplus_0_l. split; reflexivity.
Qed.

(** X2 (in exact arithmetic).  A change of rate is phase-continuous: after [t1] samples at the rate
    [w1] from the phase [p], then [set_rate w2] and [t2] more samples, the
    phase is [p + t1 w1 + t2 w2]; the call of [set_rate] itself moves
    nothing. *)
Theorem quadr_osc_rate_change_keeps_phase
  (s : state) (w1 w2 p : R) (t1 t2 : nat) :
  let before := Nat.iter t1 process (set_phase p (set_rate w1 s)) in
  let after := Nat.iter t2 process (set_rate w2 before) in
  r (set_rate w2 before) = r before /\
  i (set_rate w2 before) = i before /\
  r after = sin (p + INR t1 * w1 + INR t2 * w2) /\
  i after = - cos (p + INR t1 * w1 + INR t2 * w2).
Proof.
  intros before after.
  assert (H1 : at_phase w1 p (set_phase p (set_rate w1 s))).
  { unfold at_phase. cbn. repeat split. }
  pose proof (iter_process_at_phase w1 p t1 _ H1) as Hb. fold before in Hb.
  pose proof (set_rate_at_phase w1 w2 _ _ Hb) as Hc.
  pose proof (iter_process_at_phase w2 _ t2 _ Hc) as Ha. fold after in Ha.
  destruct Hb as (Hbr & Hbi & _). destruct Hc as (Hcr & Hci & _).
  destruct Ha as (Har & Hai & _).
  repeat split; congruence.
Qed.

End QuadrOscTrajectory.

(** ** Linear-ramp smoother: the other member functions *)

Section LipolMore.

Import lipol.

(** X3.  [instantize] ends the ramp at once: [v] is the target, as
    [getTargetValue] reports it, and stays there under any number of calls
    of [process]. *)
Theorem lipol_instantize_holds_target (s : state) (k : nat) :
  let s' := advance k (instantize s) in
  v s' = getTargetValue s /\ getTargetValue s' = getTargetValue s /\
  dv s' = 0.
Proof.
  cbn zeta. destruct (advance_always k (instantize s)) as (Hv & Hdv & Hn & _).
  unfold getTargetValue. rewrite Hv, Hdv, Hn. cbn [instantize v dv new_v].
  repeat split; ring.
Qed.

(** X4 (in exact arithmetic).  The ramp does not stop at the target: [j] calls of [process] beyond the
    [n] of the block carry [v] past it by [j] increments, so that [v] is off
    the target again unless the ramp was flat. *)
Theorem lipol_ramp_overshoots
  (checks : bool) (s0 : state) (n : Z) (T : R) (j : nat) :
  (0 < n)%Z ->
  checks && first_run s0 = false ->
  let s := newValue checks T (setBlockSize n s0) in
  v (advance (Z.to_nat n + j) s) = T + INR j * ((T - new_v s0) / IZR n) /\
  (T <> new_v s0 -> (0 < j)%nat -> v (advance (Z.to_nat n + j) s) <> T).
Proof.
  intros Hn Hg s.
  assert (Hnz : 0 < IZR n) by (apply IZR_lt; exact Hn).
  assert (E : v (advance (Z.to_nat n + j) s)
              = T + INR j * ((T - new_v s0) / IZR n)).
  { unfold s. rewrite ramp_value by assumption.
    rewrite plus_INR, INR_to_nat by lia. unfold lin_interp. field. lra. }
  split; [exact E |].
  intros HT Hj. rewrite E. intros Habs.
  assert (Hj' : 0 < INR j) by (apply lt_0_INR; exact Hj).
  assert (Hz : INR j * ((T - new_v s0) / IZR n) = 0) by lra.
  apply Rmult_integral in Hz. destruct Hz as [Hz | Hz]; [lra |].
  apply HT. unfold Rdiv in Hz. apply Rmult_integral in Hz.
  destruct Hz as [Hz | Hz]; [lra |].
  pose proof (Rinv_0_lt_compat _ Hnz). lra.
Qed.

(** With block size 4, ramping from 0 to 1, two samples too many. *)
Lemma lipol_ramp_overshoots_witness :
  let s0 := newValue true 0 (create true 32 (mk 0 0 0 0 false)) in
  let s := newValue true 1 (setBlockSize 4 s0) in
  (0 < 4)%Z /\ true && first_run s0 = false /\
  v (advance (Z.to_nat 4 + 2) s) = 1 + INR 2 * ((1 - new_v s0) / IZR 4).
Proof.
  intros s0 s.
  assert (Hn : (0 < 4)%Z) by reflexivity.
  assert (Hg : true && first_run s0 = false) by reflexivity.
  split; [exact Hn |]. split; [exact Hg |].
  exact (proj1 (lipol_ramp_overshoots true s0 4 1 2 Hn Hg)).
Defined.



(** X6.  A target set twice in a row is a steady state: after the second call
    [v] is the target, the increment is 0, and [process] moves nothing. *)
Theorem lipol_repeated_target_is_steady
  (checks : bool) (s : state) (f : R) (k : nat) :
  let s2 := newValue checks f (newValue checks f s) in
  v s2 = f /\ dv s2 = 0 /\ v (advance k s2) = f.
Proof.
  cbn zeta.
  destruct (advance_always k (newValue checks f (newValue checks f s)))
    as (Hv & _).
  rewrite Hv. unfold newValue. cbn [v dv new_v bs_inv first_run].
  destruct (checks && first_run s) eqn:Hg.
  - rewrite andb_false_r. repeat split; ring.
  - rewrite Hg. repeat split; ring.
Qed.

End LipolMore.

(** ** Exponential-lag smoother: the other member functions *)

Section LagMore.

Import lag.

Lemma exec_guard_stays_off (checks : bool) (c : call) (s : state) :
  checks && first_run s = false ->
  checks && first_run (exec checks c s) = false.
Proof.
  intros Hg. destruct c; cbn [exec]; unfold setRate, newValue, startValue,
    instantize, process; cbn [first_run]; try exact Hg;
    rewrite Hg; exact Hg.
Qed.

Lemma run_guard_stays_off (checks : bool) (cs : list call) :
  forall s, checks && first_run s = false ->
            checks && first_run (lag_run checks cs s) = false.
Proof.
  induction cs as [| c cs IH]; intros s Hg; cbn.
  - exact Hg.
  - apply IH, exec_guard_stays_off, Hg.
Qed.

Lemma first_target_clears_guard (checks : bool) (g : R) (s : state) :
  checks && first_run (newValue checks g s) = false /\
  checks && first_run (startValue checks g s) = false.
Proof.
  unfold newValue, startValue. cbn [first_run].
  destruct checks, (first_run s); split; reflexivity.
Qed.

(** X7.  The jump of the first update happens at most once in the life of a
    smoother: whatever calls follow a first [newValue] or [startValue], a
    later [newValue] leaves [v] as it is and only stores the target. *)
Theorem lag_first_update_happens_once
  (checks : bool) (s : state) (g f : R) (cs : list call) :
  let s1 := lag_run checks cs (newValue checks g s) in
  let s2 := lag_run checks cs (startValue checks g s) in
  (v (newValue checks f s1) = v s1 /\
   getTargetValue (newValue checks f s1) = f) /\
  (v (newValue checks f s2) = v s2 /\
   getTargetValue (newValue checks f s2) = f).
Proof.
  intros s1 s2. destruct (first_target_clears_guard checks g s) as [H1 H2].
  pose proof (run_guard_stays_off checks cs _ H1) as G1. fold s1 in G1.
  pose proof (run_guard_stays_off checks cs _ H2) as G2. fold s2 in G2.
  unfold newValue at 1 2 3 4, getTargetValue. cbn [v target_v].
  rewrite G1, G2. repeat split.
Qed.

(** X8 (in exact arithmetic).  [startValue] and [instantize] leave the smoother at rest: in every
    reachable state, after either call [v] is the target and any number of
    calls of [process] keeps it there. *)
Theorem lag_startValue_instantize_rest
  (checks : bool) (s : state) (f : R) (t : nat) :
  reachable checks s ->
  v (advance t (startValue checks f s)) = f /\
  v (advance t (instantize s)) = getTargetValue s.
Proof.
  intros Hr.
  assert (H1 : coherent (startValue checks f s)).
  { apply (reachable_coherent checks), (reach_exec checks (StartValue f)), Hr. }
  assert (H2 : coherent (instantize s)).
  { apply (reachable_coherent checks), (reach_exec checks Instantize), Hr. }
  pose proof (advance_distance t _ H1) as D1.
  pose proof (advance_distance t _ H2) as D2.
  unfold getTargetValue. cbn [startValue instantize v target_v lp] in D1, D2.
  split; lra.
Qed.

Lemma lag_startValue_instantize_rest_witness :
  reachable true (create true false) /\
  v (advance 3 (startValue true 5 (create true false))) = 5.
Proof.
  assert (Hr : reachable true (create true false)) by apply reach_create.
  split; [exact Hr |].
  exact (proj1 (lag_startValue_instantize_rest true _ 5 3%nat Hr)).
Defined.

(** X9.  The two degenerate rates: with the rate 1 one call of [process] puts
    [v] on the target; with the rate 0 no number of calls moves [v]. *)
Theorem lag_degenerate_rates (s : state) (t : nat) :
  v (process (setRate 1 s)) = target_v s /\
  v (advance (S t) (setRate 1 s)) = target_v s /\
  v (advance t (setRate 0 s)) = v s.
Proof.
  assert (H1 : coherent (setRate 1 s)) by (unfold coherent; reflexivity).
  assert (H0 : coherent (setRate 0 s)) by (unfold coherent; reflexivity).
  pose proof (advance_distance (S t) _ H1) as D1.
  pose proof (advance_distance t _ H0) as D0.
  cbn [setRate v target_v lp] in D1, D0.
  replace (1 - 1) with 0 in D1 by ring. rewrite pow_i in D1 by lia.
  replace (1 - 0) with 1 in D0 by ring. rewrite pow1 in D0.
  split; [cbn; ring |]. split; lra.
Qed.

(** X10.  With a rate strictly between 0 and 1 the smoother converges to its
    target and never reaches it: in a reachable state off the target, [v]
    differs from the target after every number of calls of [process], and
    is within any given distance of it from some number of calls on. *)
Theorem lag_converges_never_arrives (checks : bool) (s : state) :
  reachable checks s ->
  0 < lp s < 1 ->
  (v s <> target_v s -> forall t, v (advance t s) <> target_v s) /\
  (forall eps, 0 < eps ->
     exists N, forall t, (N <= t)%nat ->
       Rabs (v (advance t s) - target_v s) < eps).
Proof.
  intros Hr Hk. pose proof (reachable_coherent checks s Hr) as Hc.
  split.
  - intros Hne t Habs. pose proof (advance_distance t s Hc) as D.
    assert (Hp : 0 < (1 - lp s) ^ t) by (apply pow_lt; lra).
    assert (Hz : (v s - target_v s) * (1 - lp s) ^ t = 0) by lra.
    apply Rmult_integral in Hz. destruct Hz; lra.
  - intros eps Heps.
    destruct (Req_dec (v s) (target_v s)) as [E | Hne].
    + exists 0%nat. intros t _. rewrite (advance_distance t s Hc), E.
      replace ((target_v s - target_v s) * (1 - lp s) ^ t) with 0 by ring.
      rewrite Rabs_R0. exact Heps.
    + assert (Hd : 0 < Rabs (v s - target_v s)) by (apply Rabs_pos_lt; lra).
      assert (Hq : Rabs (1 - lp s) < 1) by (rewrite Rabs_pos_eq; lra).
      destruct (pow_lt_1_zero (1 - lp s) Hq (eps / Rabs (v s - target_v s)))
        as [N HN].
      { apply Rdiv_lt_0_compat; assumption. }
      exists N. intros t Ht. rewrite (advance_distance t s Hc), Rabs_mult.
      specialize (HN t Ht).
      apply Rmult_lt_compat_l with (r := Rabs (v s - target_v s)) in HN;
        [| exact Hd].
      replace (Rabs (v s - target_v s) * (eps / Rabs (v s - target_v s)))
        with eps in HN by (field; lra).
      exact HN.
Qed.

Lemma lag_converges_never_arrives_witness :
  let s := newValue true 1 (newValue true 0 (create true false)) in
  reachable true s /\ 0 < lp s < 1 /\ v s <> target_v s /\
  v (advance 7 s) <> target_v s.
Proof.
  intros s.
  assert (Hr : reachable true s).
  { apply (reach_exec true (NewValue 1)), (reach_exec true (NewValue 0)).
    apply reach_create. }
  assert (Hk : 0 < lp s < 1) by (cbn; lra).
  assert (Hne : v s <> target_v s) by (cbn; lra).
  split; [exact Hr |]. split; [exact Hk |]. split; [exact Hne |].
  exact (proj1 (lag_converges_never_arrives true s Hr Hk) Hne 7%nat).
Defined.

End LagMore.

(** ** Numeric guards *)

Section Guards.

(** X11.  [flush_denormal] leaves either 0 or a value of magnitude at least
    [1e-30]; it keeps such a value as it is, moves no value by [1e-30] or
    more, and a second application changes nothing. *)
Theorem flush_denormal_flushes (d : R) :
  (flush_denormal d = 0 \/ 1 / 10 ^ 30 <= Rabs (flush_denormal d)) /\
  (Rabs d < 1 / 10 ^ 30 <-> flush_denormal d = 0) /\
  (1 / 10 ^ 30 <= Rabs d <-> flush_denormal d = d /\ d <> 0) /\
  Rabs (flush_denormal d - d) < 1 / 10 ^ 30 /\
  flush_denormal (flush_denormal d) = flush_denormal d.
Proof.
  assert (He : 0 < 1 / 10 ^ 30) by lra.
  assert (H0 : flush_denormal 0 = 0).
  { unfold flush_denormal. destruct (Rlt_dec (Rabs 0) (1 / 10 ^ 30)); reflexivity. }
  destruct (Rlt_dec (Rabs d) (1 / 10 ^ 30)) as [Hs | Hb].
  - assert (E : flush_denormal d = 0).
    { unfold flush_denormal.
      destruct (Rlt_dec (Rabs d) (1 / 10 ^ 30)); [reflexivity | contradiction]. }
    rewrite !E, H0.
    split; [left; reflexivity |].
    split; [split; [reflexivity | intros _; exact Hs] |].
    split; [split; [lra | intros [E' Hd]; exfalso; apply Hd; symmetry; exact E'] |].
    split; [| reflexivity].
    replace (0 - d) with (- d) by ring. rewrite Rabs_Ropp. exact Hs.
  - assert (E : flush_denormal d = d).
    { unfold flush_denormal.
      destruct (Rlt_dec (Rabs d) (1 / 10 ^ 30)); [contradiction | reflexivity]. }
    assert (Hd : d <> 0).
    { intros ->. rewrite Rabs_R0 in Hb. lra. }
    rewrite !E.
    split; [right; lra |].
    split; [split; [lra | intros E'; exfalso; apply Hd; exact E'] |].
    split; [split; [intros _; split; [reflexivity | exact Hd] | lra] |].
    split; [| reflexivity].
    replace (d - d) with 0 by ring. rewrite Rabs_R0. exact He.
Qed.



End Guards.

(** ** Interpolation kernels *)

Section Kernels.

(** X13 (in exact arithmetic).  [lerp] returns [a] at 0 and [b] at 1, stays between the two for [x] in
    [[0, 1]], reads the same from either end, and extrapolates along the line
    outside. *)
Theorem lerp_between (a b x : R) :
  0 <= x <= 1 ->
  Rmin a b <= lerp a b x <= Rmax a b /\
  lerp a b 0 = a /\ lerp a b 1 = b /\
  lerp a b x = lerp b a (1 - x) /\
  (forall y, lerp a b y = a + y * (b - a)).
Proof.
  intros Hx. unfold lerp.
  split; [| repeat split; intros; ring].
  unfold Rmin, Rmax. destruct (Rle_dec a b); split; nra.
Qed.

Lemma lerp_between_witness :
  0 <= 1 / 4 <= 1 /\ Rmin 2 6 <= lerp 2 6 (1 / 4) <= Rmax 2 6.
Proof.
  assert (H : 0 <= 1 / 4 <= 1) by lra.
  split; [exact H |]. exact (proj1 (lerp_between 2 6 (1 / 4) H)).
Defined.

(** X14 (in exact arithmetic).  [cos_ipol] never leaves the interval between its two samples, for any
    position whatever; it returns the first sample at 0, the second at 1 and
    their mean at 1/2; it reads the same from either end; as functions of
    the position it is even and has period 2. *)
Theorem cos_ipol_between (y1 y2 mu : R) :
  Rmin y1 y2 <= cos_ipol y1 y2 mu <= Rmax y1 y2 /\
  cos_ipol y1 y2 0 = y1 /\
  cos_ipol y1 y2 1 = y2 /\
  cos_ipol y1 y2 (1 / 2) = (y1 + y2) / 2 /\
  cos_ipol y1 y2 (1 - mu) = cos_ipol y2 y1 mu /\
  cos_ipol y1 y2 (- mu) = cos_ipol y1 y2 mu /\
  cos_ipol y1 y2 (mu + 2) = cos_ipol y1 y2 mu.
Proof.
  unfold cos_ipol. cbn zeta.
  split; [| split; [| split; [| split; [| split; [| split]]]]].
  - pose proof (COS_bound (mu * PI)) as [Hl Hu].
    unfold Rmin, Rmax. destruct (Rle_dec y1 y2); split; nra.
  - rewrite Rmult_0_l, cos_0. ring.
  - rewrite Rmult_1_l, cos_PI. lra.
  - replace (1 / 2 * PI) with (PI / 2) by lra. rewrite cos_PI2. lra.
  - replace ((1 - mu) * PI) with (PI - mu * PI) by ring.
    rewrite Rtrigo_facts.cos_pi_minus. lra.
  - replace (- mu * PI) with (- (mu * PI)) by ring. rewrite cos_neg.
    reflexivity.
  - replace ((mu + 2) * PI) with (mu * PI + 2 * INR 1 * PI) by (simpl; ring).
    rewrite cos_period. reflexivity.
Qed.

(** Derivative of a cubic polynomial written the way [cubic_ipol] writes
    it. *)
Lemma cubic_form_derivative (a b c d x : R) :
  derivable_pt_lim
    (fun m => a * m * (m * m) + b * (m * m) + c * m + d) x
    (3 * a * (x * x) + 2 * b * x + c).
Proof.
  intros eps Heps.
  pose (K := Rabs a * (3 * Rabs x + 1) + Rabs b + 1).
  assert (HK : 0 < K).
  { unfold K. pose proof (Rabs_pos a). pose proof (Rabs_pos b).
    pose proof (Rabs_pos x). nra. }
  assert (Hd : 0 < Rmin 1 (eps / K)).
  { apply Rmin_pos; [lra | apply Rdiv_lt_0_compat; assumption]. }
  exists (mkposreal _ Hd). intros h Hh Hlt. cbn in Hlt.
  replace ((a * (x + h) * ((x + h) * (x + h)) + b * ((x + h) * (x + h))
            + c * (x + h) + d
            - (a * x * (x * x) + b * (x * x) + c * x + d)) / h
           - (3 * a * (x * x) + 2 * b * x + c))
    with (h * (a * (3 * x + h) + b)) by (field; exact Hh).
  rewrite Rabs_mult.
  assert (H1 : Rabs h < 1) by (eapply Rlt_le_trans; [exact Hlt | apply Rmin_l]).
  assert (H2 : Rabs h < eps / K)
    by (eapply Rlt_le_trans; [exact Hlt | apply Rmin_r]).
  assert (H3 : Rabs (a * (3 * x + h) + b) <= K).
  { unfold K. eapply Rle_trans; [apply Rabs_triang |]. rewrite Rabs_mult.
    assert (Rabs (3 * x + h) <= 3 * Rabs x + 1).
    { eapply Rle_trans; [apply Rabs_triang |]. rewrite Rabs_mult.
      rewrite (Rabs_pos_eq 3) by lra. lra. }
    pose proof (Rabs_pos a). nra. }
  assert (H4 : Rabs h * Rabs (a * (3 * x + h) + b) <= Rabs h * K).
  { apply Rmult_le_compat_l; [apply Rabs_pos | exact H3]. }
  assert (H5 : Rabs h * K < eps).
  { apply Rmult_lt_compat_r with (r := K) in H2; [| exact HK].
    replace (eps / K * K) with eps in H2 by (field; lra). exact H2. }
  lra.
Qed.

Lemma derivable_pt_lim_pointwise (f g : R -> R) (x l : R) :
  (forall m, f m = g m) -> derivable_pt_lim g x l -> derivable_pt_lim f x l.
Proof.
  intros E Hg eps Heps. destruct (Hg eps Heps) as [delta Hdelta].
  exists delta. intros h Hh Hlt. rewrite !E. apply Hdelta; assumption.
Qed.

(** X15.  [cubic_ipol] over any four samples passes through the two middle ones,
    with the slope [y2 - y0] at [mu = 0] and [y3 - y1] at [mu = 1].  Hence
    over five consecutive samples the segment of the first four ends where
    the segment of the last four starts, with the same value and the same
    slope: the pieces join into a continuously differentiable curve. *)
Theorem cubic_ipol_segments_join (y0 y1 y2 y3 y4 : R) :
  cubic_ipol y0 y1 y2 y3 0 = y1 /\
  cubic_ipol y0 y1 y2 y3 1 = y2 /\
  derivable_pt_lim (cubic_ipol y0 y1 y2 y3) 0 (y2 - y0) /\
  derivable_pt_lim (cubic_ipol y0 y1 y2 y3) 1 (y3 - y1) /\
  cubic_ipol y0 y1 y2 y3 1 = cubic_ipol y1 y2 y3 y4 0 /\
  derivable_pt_lim (cubic_ipol y1 y2 y3 y4) 0 (y3 - y1).
Proof.
  assert (Dx : forall a b c d x,
             derivable_pt_lim (cubic_ipol a b c d) x
               (3 * (d - c - a + b) * (x * x)
                + 2 * (a - b - (d - c - a + b)) * x + (c - a))).
  { intros a b c d x. unfold cubic_ipol. apply cubic_form_derivative. }
  split; [unfold cubic_ipol; ring |].
  split; [unfold cubic_ipol; ring |].
  split.
  { replace (y2 - y0)
      with (3 * (y3 - y2 - y0 + y1) * (0 * 0)
            + 2 * (y0 - y1 - (y3 - y2 - y0 + y1)) * 0 + (y2 - y0)) by ring.
    apply Dx. }
  split.
  { replace (y3 - y1)
      with (3 * (y3 - y2 - y0 + y1) * (1 * 1)
            + 2 * (y0 - y1 - (y3 - y2 - y0 + y1)) * 1 + (y2 - y0)) by ring.
    apply Dx. }
  split; [unfold cubic_ipol; ring |].
  replace (y3 - y1)
    with (3 * (y4 - y3 - y1 + y2) * (0 * 0)
          + 2 * (y1 - y2 - (y4 - y3 - y1 + y2)) * 0 + (y3 - y1)) by ring.
  apply Dx.
Qed.

(** X16 (in exact arithmetic).  [quad_spline_ipol] blends three of its four samples with weights that
    are non-negative and sum to 1: for [mu] in [[0, 1]] the result stays
    within any bounds of the samples.  The odd half ignores [y3] and ends on
    [y2]; the even half ignores [y0] and starts on [y1]; the halves meet: an
    even half ends at [(y1 + 2 y2 + y3) / 4], where the odd half over the
    samples moved on by one starts, and an odd half ends at [y2], where
    the even half over the samples moved on by one starts. *)
Theorem quad_spline_ipol_halves
  (y0 y1 y2 y3 y4 mu lo hi : R) (odd : Z) :
  0 <= mu <= 1 ->
  lo <= y0 <= hi -> lo <= y1 <= hi -> lo <= y2 <= hi -> lo <= y3 <= hi ->
  lo <= quad_spline_ipol y0 y1 y2 y3 mu odd <= hi /\
  (odd <> 0%Z ->
   quad_spline_ipol y0 y1 y2 y3 mu odd = quad_spline_ipol y0 y1 y2 y4 mu 1) /\
  quad_spline_ipol y0 y1 y2 y3 mu 0 = quad_spline_ipol y4 y1 y2 y3 mu 0 /\
  quad_spline_ipol y0 y1 y2 y3 0 0 = y1 /\
  quad_spline_ipol y0 y1 y2 y3 1 0 = (y1 + 2 * y2 + y3) / 4 /\
  quad_spline_ipol y0 y1 y2 y3 1 0 = quad_spline_ipol y1 y2 y3 y4 0 1 /\
  quad_spline_ipol y0 y1 y2 y3 1 1 = y2 /\
  quad_spline_ipol y0 y1 y2 y3 1 1 = quad_spline_ipol y1 y2 y3 y4 0 0.
Proof.
  intros Hmu H0 H1 H2 H3.
  split.
  - unfold quad_spline_ipol. destruct (odd =? 0)%Z; cbn zeta.
    + set (m := mu * (5 / 10)).
      assert (Hm : 0 <= m <= 1) by (unfold m; lra).
      set (f0 := m * y2 + (1 - m) * y1).
      set (f1 := m * y3 + (1 - m) * y2).
      assert (lo <= f0 <= hi) by (unfold f0; split; nra).
      assert (lo <= f1 <= hi) by (unfold f1; split; nra).
      split; nra.
    + set (m := 5 / 10 + mu * (5 / 10)).
      assert (Hm : 0 <= m <= 1) by (unfold m; lra).
      set (f0 := m * y1 + (1 - m) * y0).
      set (f1 := m * y2 + (1 - m) * y1).
      assert (lo <= f0 <= hi) by (unfold f0; split; nra).
      assert (lo <= f1 <= hi) by (unfold f1; split; nra).
      split; nra.
  - split.
    { intros Hodd. unfold quad_spline_ipol.
      replace (odd =? 0)%Z with false
        by (symmetry; apply Z.eqb_neq; exact Hodd).
      reflexivity. }
    unfold quad_spline_ipol. cbn. repeat split; lra.
Qed.

Lemma quad_spline_ipol_halves_witness :
  0 <= 1 / 2 <= 1 /\
  0 <= quad_spline_ipol 0 1 (1 / 2) 1 (1 / 2) 3 <= 1.
Proof.
  assert (Hm : 0 <= 1 / 2 <= 1) by lra.
  assert (Ha : 0 <= 0 <= 1) by lra.
  assert (Hb : 0 <= 1 <= 1) by lra.
  split; [exact Hm |].
  exact (proj1 (quad_spline_ipol_halves 0 1 (1 / 2) 1 0 (1 / 2) 0 1 3
                  Hm Ha Hb Hm Hb)).
Defined.

(** X17 (in exact arithmetic).  [quad_bspline] blends its three samples with weights that sum to 1 and
    are non-negative for [mu] in [[0, 1]]: the result stays within any bounds
    of the samples.  A segment runs from the mean of the first two samples to
    the mean of the last two, with the slopes [y1 - y0] and [y2 - y1], so
    consecutive segments join with the same value and the same slope.
    Samples on a straight line give the line, read half a sample late. *)
Theorem quad_bspline_segments_join (y0 y1 y2 y3 mu lo hi : R) :
  0 <= mu <= 1 ->
  lo <= y0 <= hi -> lo <= y1 <= hi -> lo <= y2 <= hi ->
  lo <= quad_bspline y0 y1 y2 mu <= hi /\
  quad_bspline y0 y1 y2 0 = (y0 + y1) / 2 /\
  quad_bspline y0 y1 y2 1 = (y1 + y2) / 2 /\
  quad_bspline y0 y1 y2 1 = quad_bspline y1 y2 y3 0 /\
  derivable_pt_lim (quad_bspline y0 y1 y2) 1 (y2 - y1) /\
  derivable_pt_lim (quad_bspline y1 y2 y3) 0 (y2 - y1) /\
  (forall a b x : R,
     quad_bspline a (a + b) (a + 2 * b) x = a + b * (x + 1 / 2)).
Proof.
  intros Hmu H0 H1 H2.
  assert (D : forall a b c x,
             derivable_pt_lim (quad_bspline a b c) x
               (3 * 0 * (x * x) + 2 * ((a - 2 * b + c) / 2) * x + (b - a))).
  { intros a b c x.
    apply derivable_pt_lim_pointwise
      with (g := fun m => 0 * m * (m * m) + (a - 2 * b + c) / 2 * (m * m)
                          + (b - a) * m + (a + b) / 2).
    - intros m. unfold quad_bspline. field.
    - apply cubic_form_derivative. }
  split.
  - unfold quad_bspline.
    replace (5 / 10 * (y2 * (mu * mu) + y1 * (-2 * mu * mu + 2 * mu + 1)
                       + y0 * (mu * mu - 2 * mu + 1)))
      with (mu * mu / 2 * y2 + (-2 * mu * mu + 2 * mu + 1) / 2 * y1
            + (1 - mu) * (1 - mu) / 2 * y0) by field.
    assert (W2 : 0 <= mu * mu / 2) by nra.
    assert (W1 : 0 <= (-2 * mu * mu + 2 * mu + 1) / 2) by nra.
    assert (W0 : 0 <= (1 - mu) * (1 - mu) / 2) by nra.
    assert (WS : mu * mu / 2 + (-2 * mu * mu + 2 * mu + 1) / 2
                 + (1 - mu) * (1 - mu) / 2 = 1) by field.
    split; nra.
  - split; [unfold quad_bspline; field |].
    split; [unfold quad_bspline; field |].
    split; [unfold quad_bspline; field |].
    split.
    { replace (y2 - y1)
        with (3 * 0 * (1 * 1) + 2 * ((y0 - 2 * y1 + y2) / 2) * 1 + (y1 - y0))
        by field.
      apply D. }
    split.
    { replace (y2 - y1)
        with (3 * 0 * (0 * 0) + 2 * ((y1 - 2 * y2 + y3) / 2) * 0 + (y2 - y1))
        by field.
      apply D. }
    intros a b x. unfold quad_bspline. field.
Qed.

Lemma quad_bspline_segments_join_witness :
  0 <= 1 / 2 <= 1 /\ 0 <= quad_bspline 0 1 (1 / 2) (1 / 2) <= 1.
Proof.
  assert (Hm : 0 <= 1 / 2 <= 1) by lra.
  assert (Ha : 0 <= 0 <= 1) by lra.
  assert (Hb : 0 <= 1 <= 1) by lra.
  split; [exact Hm |].
  exact (proj1 (quad_bspline_segments_join 0 1 (1 / 2) 0 (1 / 2) 0 1
                  Hm Ha Hb Hm)).
Defined.

End Kernels.

(** ** Panning *)

Section Panning.

(** X18 (in exact arithmetic).  [trixpan] moves signal from one channel to the other without loss: the
    sum of the two channels is kept for every [x]; [x = 0] changes nothing,
    [x = -1] puts everything on the left and [x = 1] everything on the
    right; the channel panned towards is never attenuated, it only receives;
    and panning by [- x] is the mirror image of panning by [x]. *)
Theorem trixpan_keeps_sum (L R0 x : R) :
  fst (trixpan L R0 x) + snd (trixpan L R0 x) = L + R0 /\
  trixpan L R0 0 = (L, R0) /\
  trixpan L R0 (-1) = (L + R0, 0) /\
  trixpan L R0 1 = (0, L + R0) /\
  (x < 0 -> fst (trixpan L R0 x) = L + - x * R0) /\
  (0 <= x -> snd (trixpan L R0 x) = R0 + x * L) /\
  trixpan R0 L (- x) = (snd (trixpan L R0 x), fst (trixpan L R0 x)).
Proof.
  unfold trixpan.
  destruct (Rlt_dec 0 0) as [H00 | H00]; [lra |].
  destruct (Rlt_dec (-1) 0) as [Hm | Hm]; [| lra].
  destruct (Rlt_dec 1 0) as [H1 | H1]; [lra |].
  destruct (Rlt_dec x 0) as [Hx | Hx];
    destruct (Rlt_dec (- x) 0) as [Hx' | Hx']; cbn [fst snd];
    try (exfalso; lra);
    repeat split; try (intros; lra); try ring; try (f_equal; ring).
  (* x = 0 *)
  assert (x = 0) by lra. subst x. f_equal; ring.
Qed.

End Panning.

(** ** The shape of [tanh_fast] *)

Section TanhFastShape.

(** The value as one quotient. *)
Lemma tanh_fast_quotient (x : R) :
  tanh_fast x = x * (1 + Rabs x) / (1 + Rabs x + x * x).
Proof.
  unfold tanh_fast. cbn zeta. rewrite int_quot_2_3, Rabs_square.
  assert (Hd : 0 < 1 + Rabs x + x * x).
  { pose proof (Rabs_pos x). nra. }
  replace (1 + Rabs x + x * x + 0 * Rabs x * (x * x))
    with (1 + Rabs x + x * x) by ring.
  destruct (Rlt_dec 0 x) as [Hp | Hn].
  - rewrite (Rabs_pos_eq x) in * by lra. field. lra.
  - assert (E : Rabs x = - x).
    { unfold Rabs. destruct (Rcase_abs x); lra. }
    rewrite E in *. field. lra.
Qed.

Lemma tanh_fast_nonneg_increasing (a b : R) :
  0 <= a < b ->
  a * (1 + a) / (1 + a + a * a) < b * (1 + b) / (1 + b + b * b).
Proof.
  intros [Ha Hab].
  assert (Da : 0 < 1 + a + a * a) by nra.
  assert (Db : 0 < 1 + b + b * b) by nra.
  apply Rmult_lt_reg_r with (r := (1 + a + a * a) * (1 + b + b * b));
    [nra |].
  replace (a * (1 + a) / (1 + a + a * a) * ((1 + a + a * a) * (1 + b + b * b)))
    with (a * (1 + a) * (1 + b + b * b)) by (field; lra).
  replace (b * (1 + b) / (1 + b + b * b) * ((1 + a + a * a) * (1 + b + b * b)))
    with (b * (1 + b) * (1 + a + a * a)) by (field; lra).
  assert (0 < b - a) by lra.
  assert (0 <= a * b) by nra.
  nra.
Qed.

(** X19.  As the code stands, [tanh_fast] still has the shape of a saturation
    curve: it is odd, vanishes at 0 only, is strictly increasing, stays
    strictly between -1 and 1, and never exceeds its argument in
    magnitude. *)
Theorem tanh_fast_is_sigmoid (a b : R) :
  tanh_fast (- a) = - tanh_fast a /\
  (tanh_fast a = 0 <-> a = 0) /\
  -1 < tanh_fast a < 1 /\
  Rabs (tanh_fast a) <= Rabs a /\
  (a < b -> tanh_fast a < tanh_fast b).
Proof.
  assert (Q : forall x, 0 <= x ->
                        0 <= x * (1 + x) / (1 + x + x * x) < 1 /\
                        x * (1 + x) / (1 + x + x * x) <= x /\
                        (x * (1 + x) / (1 + x + x * x) = 0 -> x = 0)).
  { intros x Hx. assert (D : 0 < 1 + x + x * x) by nra.
    assert (E : x * (1 + x) / (1 + x + x * x) * (1 + x + x * x) = x * (1 + x))
      by (field; lra).
    set (q := x * (1 + x) / (1 + x + x * x)) in *.
    assert (0 <= q).
    { destruct (Rle_lt_dec 0 q); [assumption | exfalso; nra]. }
    assert (q < 1).
    { destruct (Rlt_le_dec q 1); [assumption | exfalso; nra]. }
    assert (q <= x).
    { destruct (Rle_lt_dec q x); [assumption | exfalso].
      assert (x * (1 + x + x * x) < q * (1 + x + x * x))
        by (apply Rmult_lt_compat_r; assumption).
      nra. }
    repeat split; try assumption. intros Hq. rewrite Hq in E. nra. }
  assert (N : forall x, x <= 0 ->
                        tanh_fast x = - ((- x) * (1 + - x)
                                         / (1 + - x + - x * - x))).
  { intros x Hx. rewrite tanh_fast_quotient.
    assert (E : Rabs x = - x) by (unfold Rabs; destruct (Rcase_abs x); lra).
    rewrite E. assert (0 < 1 + - x + x * x) by nra. field. nra. }
  assert (P : forall x, 0 <= x ->
                        tanh_fast x = x * (1 + x) / (1 + x + x * x)).
  { intros x Hx. rewrite tanh_fast_quotient, (Rabs_pos_eq x) by exact Hx.
    reflexivity. }
  split.
  { rewrite !tanh_fast_quotient, Rabs_Ropp.
    assert (0 < 1 + Rabs a + a * a) by (pose proof (Rabs_pos a); nra).
    field. nra. }
  destruct (Rle_lt_dec 0 a) as [Ha | Ha].
  - destruct (Q a Ha) as ([Q0 Q1] & Q2 & Q3).
    rewrite (P a Ha), (Rabs_pos_eq a) by exact Ha.
    split; [split; [exact Q3 | intros ->; field] |].
    split; [lra |].
    split; [rewrite Rabs_pos_eq by exact Q0; exact Q2 |].
    intros Hab. rewrite (P b) by lra.
    apply tanh_fast_nonneg_increasing. lra.
  - assert (Ha' : 0 <= - a) by lra.
    destruct (Q (- a) Ha') as ([Q0 Q1] & Q2 & Q3).
    rewrite (N a) by lra.
    assert (Ea : Rabs a = - a) by (unfold Rabs; destruct (Rcase_abs a); lra).
    rewrite Ea, Rabs_Ropp.
    split; [split; [intros H; exfalso; assert (H' : - a = 0) by (apply Q3; lra);
                    lra
                   | intros ->; lra] |].
    split; [lra |].
    split; [rewrite Rabs_pos_eq by exact Q0; exact Q2 |].
    intros Hab.
    destruct (Rle_lt_dec 0 b) as [Hb | Hb].
    + destruct (Q b Hb) as ([B0 _] & _ & _). rewrite (P b Hb).
      assert (- a * (1 + - a) / (1 + - a + - a * - a) <> 0)
        by (intros H; apply Q3 in H; lra).
      lra.
    + rewrite (N b) by lra.
      assert (- b * (1 + - b) / (1 + - b + - b * - b)
              < - a * (1 + - a) / (1 + - a + - a * - a))
        by (apply tanh_fast_nonneg_increasing; lra).
      lra.
Qed.

Lemma tanh_fast_is_sigmoid_witness :
  1 / 2 < 2 /\ tanh_fast (1 / 2) < tanh_fast 2.
Proof.
  assert (H : 1 / 2 < 2) by lra.
  split; [exact H |].
  exact (proj2 (proj2 (proj2 (proj2 (tanh_fast_is_sigmoid (1 / 2) 2)))) H).
Defined.

End TanhFastShape.

(** ** Cardinal sines *)

Section CardinalSines.

Lemma sin_magnitude (x : R) : Rabs (sin x) <= Rabs x.
Proof.
  assert (Hpos : forall y, 0 < y -> - y <= sin y <= y).
  { intros y Hy. split; [| left; apply sin_lt_x; exact Hy].
    destruct (Rle_lt_dec 1 y) as [H1 | H1].
    - pose proof (SIN_bound y). lra.
    - assert (0 < sin y); [| lra].
      apply sin_gt_0; [exact Hy |]. pose proof PI2_1. lra. }
  destruct (Rtotal_order x 0) as [Hn | [-> | Hp]].
  - destruct (Hpos (- x)) as [Hl Hu]; [lra |]. rewrite sin_neg in *.
    unfold Rabs. destruct (Rcase_abs (sin x)), (Rcase_abs x); lra.
  - rewrite sin_0, Rabs_R0. lra.
  - destruct (Hpos x Hp) as [Hl Hu].
    unfold Rabs. destruct (Rcase_abs (sin x)), (Rcase_abs x); lra.
Qed.

Lemma quotient_magnitude (p q : R) :
  q <> 0 -> Rabs p <= Rabs q -> Rabs (p / q) <= 1.
Proof.
  intros Hq Hle. unfold Rdiv. rewrite Rabs_mult, Rabs_inv.
  assert (0 < Rabs q) by (apply Rabs_pos_lt; exact Hq).
  apply Rmult_le_reg_r with (r := Rabs q); [assumption |].
  replace (Rabs p * / Rabs q * Rabs q) with (Rabs p) by (field; lra).
  lra.
Qed.

Lemma nonzero_integer_magnitude (k : Z) : k <> 0%Z -> 1 <= Rabs (IZR k).
Proof.
  intros Hk. destruct (Z_lt_le_dec k 0) as [Hn | Hp].
  - assert (IZR k <= -1) by (apply IZR_le; lia).
    unfold Rabs. destruct (Rcase_abs (IZR k)); lra.
  - assert (1 <= IZR k) by (apply IZR_le; lia).
    unfold Rabs. destruct (Rcase_abs (IZR k)); lra.
Qed.

(** X20 (in exact arithmetic).  [sincf] is the normalised cardinal sine: 1 at 0, 0 at every other
    integer, even, and never above 1 in magnitude. *)
Theorem sincf_cardinal (x : R) (k : Z) :
  sincf 0 = 1 /\
  (k <> 0%Z -> sincf (IZR k) = 0) /\
  sincf (- x) = sincf x /\
  Rabs (sincf x) <= 1.
Proof.
  assert (Hpi : 0 < PI) by apply PI_RGT_0.
  split; [| split; [| split]].
  - unfold sincf. destruct (Req_dec_T 0 0); [reflexivity | contradiction].
  - intros Hk. unfold sincf.
    destruct (Req_dec_T (IZR k) 0) as [E | _].
    + apply eq_IZR in E. contradiction.
    + replace (sin (PI * IZR k)) with 0.
      * unfold Rdiv. ring.
      * symmetry. apply sin_eq_0_1. exists k. ring.
  - unfold sincf.
    destruct (Req_dec_T (- x) 0) as [E | N], (Req_dec_T x 0) as [E' | N'];
      try reflexivity; try (exfalso; lra).
    replace (PI * - x) with (- (PI * x)) by ring. rewrite sin_neg.
    field. split; lra.
  - unfold sincf. destruct (Req_dec_T x 0) as [E | N].
    + rewrite Rabs_R1. lra.
    + apply quotient_magnitude; [| apply sin_magnitude].
      intros H. apply Rmult_integral in H. destruct H; lra.
Qed.

(** X21.  [sinc] is the unnormalised cardinal sine: 1 at 0, 0 at every other
    multiple of [PI], even, and never above 1 in magnitude.  [sincf x] is
    [sinc (PI x)] wherever the argument of [sinc] is 0 or not below the
    threshold [1e-22] of [sinc]. *)
Theorem sinc_cardinal (x : R) (k : Z) :
  sinc 0 = 1 /\
  (k <> 0%Z -> sinc (IZR k * PI) = 0) /\
  sinc (- x) = sinc x /\
  Rabs (sinc x) <= 1 /\
  (x = 0 \/ 1 / 10 ^ 22 <= Rabs (PI * x) -> sincf x = sinc (PI * x)).
Proof.
  assert (Hpi : 0 < PI) by apply PI_RGT_0.
  assert (He : 0 < 1 / 10 ^ 22) by lra.
  split; [| split; [| split; [| split]]].
  - unfold sinc. rewrite Rabs_R0.
    destruct (Rlt_dec 0 (1 / 10 ^ 22)); [reflexivity | contradiction].
  - intros Hk. unfold sinc.
    destruct (Rlt_dec (Rabs (IZR k * PI)) (1 / 10 ^ 22)) as [Hs | _].
    + exfalso. rewrite Rabs_mult, (Rabs_pos_eq PI) in Hs by lra.
      pose proof (nonzero_integer_magnitude k Hk). pose proof PI2_1. nra.
    + replace (sin (IZR k * PI)) with 0.
      * unfold Rdiv. ring.
      * symmetry. apply sin_eq_0_1. exists k. reflexivity.
  - unfold sinc. rewrite Rabs_Ropp.
    destruct (Rlt_dec (Rabs x) (1 / 10 ^ 22)) as [Hs | Hb]; [reflexivity |].
    assert (x <> 0) by (intros ->; rewrite Rabs_R0 in Hb; lra).
    rewrite sin_neg. field. assumption.
  - unfold sinc.
    destruct (Rlt_dec (Rabs x) (1 / 10 ^ 22)) as [Hs | Hb].
    + rewrite Rabs_R1. lra.
    + assert (x <> 0) by (intros ->; rewrite Rabs_R0 in Hb; lra).
      apply quotient_magnitude; [assumption | apply sin_magnitude].
  - intros [-> | Hb].
    + unfold sincf, sinc. rewrite Rmult_0_r, Rabs_R0.
      destruct (Req_dec_T 0 0); [| contradiction].
      destruct (Rlt_dec 0 (1 / 10 ^ 22)); [reflexivity | contradiction].
    + unfold sincf, sinc.
      destruct (Rlt_dec (Rabs (PI * x)) (1 / 10 ^ 22)) as [Hs | _]; [lra |].
      destruct (Req_dec_T x 0) as [-> | _]; [| reflexivity].
      rewrite Rmult_0_r, Rabs_R0 in Hb. lra.
Qed.

End CardinalSines.

(** ** Window functions: symmetry, end points and range *)

Section WindowShapes.

Lemma cos_reflect (k : nat) (y : R) : cos (2 * INR k * PI - y) = cos y.
Proof.
  replace (2 * INR k * PI - y) with (- y + 2 * INR k * PI) by ring.
  rewrite cos_period. apply cos_neg.
Qed.

Lemma cos_full_turns (k : nat) : cos (2 * INR k * PI) = 1.
Proof.
  replace (2 * INR k * PI) with (0 + 2 * INR k * PI) by ring.
  rewrite cos_period. apply cos_0.
Qed.

Lemma cos_3a (x : R) : cos (3 * x) = 4 * cos x * cos x * cos x - 3 * cos x.
Proof.
  replace (3 * x) with (2 * x + x) by ring.
  rewrite cos_plus, cos_2a_cos, sin_2a.
  pose proof (sin2_cos2 x) as H. unfold Rsqr in H.
  replace (2 * sin x * cos x * sin x) with (2 * cos x * (sin x * sin x)) by ring.
  replace (sin x * sin x) with (1 - cos x * cos x) by lra. ring.
Qed.

(** The angles of the cosine terms, for a window of length [n >= 2]. *)
Lemma window_angles (i n : Z) (c : R) :
  (2 <= n)%Z ->
  c * PI * IZR (n - 1 - i) / IZR (n - 1)
  = c * PI - c * PI * IZR i / IZR (n - 1).
Proof.
  intros Hn. assert (IZR (n - 1) <> 0) by (apply not_0_IZR; lia).
  rewrite (minus_IZR (n - 1) i). field. assumption.
Qed.

Lemma window_cos_reflect (k : nat) (c : R) (i n : Z) :
  c = 2 * INR k -> (2 <= n)%Z ->
  cos (c * PI * IZR (n - 1 - i) / IZR (n - 1))
  = cos (c * PI * IZR i / IZR (n - 1)).
Proof.
  intros -> Hn. rewrite window_angles by exact Hn. apply cos_reflect.
Qed.

Lemma window_cos_ends (k : nat) (c : R) (n : Z) :
  c = 2 * INR k -> (2 <= n)%Z ->
  cos (c * PI * 0 / IZR (n - 1)) = 1 /\
  cos (c * PI * IZR (n - 1) / IZR (n - 1)) = 1.
Proof.
  intros -> Hn. assert (IZR (n - 1) <> 0) by (apply not_0_IZR; lia).
  replace (2 * INR k * PI * 0 / IZR (n - 1)) with 0 by (field; assumption).
  replace (2 * INR k * PI * IZR (n - 1) / IZR (n - 1)) with (2 * INR k * PI)
    by (field; assumption).
  split; [apply cos_0 | apply cos_full_turns].
Qed.

(** X22 (in exact arithmetic).  Inside a window of length [n >= 2], [hanning] and [hamming] are
    symmetric about the middle, take their least value, 0 and 0.08, at both
    ends and the value 1 in the middle of a window of odd length; [hanning]
    lies in [[0, 1]] and [hamming] in [[0.08, 1]]; and [hamming] is
    [0.08 + 0.92 hanning]. *)
Theorem hanning_hamming_shape (i n : Z) :
  (2 <= n)%Z ->
  (0 <= i < n)%Z ->
  (hanning (n - 1 - i) n = hanning i n /\
   hamming (n - 1 - i) n = hamming i n) /\
  (hanning 0 n = 0 /\ hanning (n - 1) n = 0) /\
  (hamming 0 n = 8 / 100 /\ hamming (n - 1) n = 8 / 100) /\
  (0 <= hanning i n <= 1 /\ 8 / 100 <= hamming i n <= 1) /\
  hamming i n = 8 / 100 + 92 / 100 * hanning i n /\
  (forall m : Z, n = (2 * m + 1)%Z -> hanning m n = 1 /\ hamming m n = 1).
Proof.
  intros Hn Hi.
  assert (Hd : IZR (n - 1) <> 0) by (apply not_0_IZR; lia).
  assert (In : forall j, (j < n)%Z -> (j >=? n)%Z = false).
  { intros j Hj. rewrite Z.geb_leb. apply Z.leb_gt. lia. }
  unfold hanning, hamming.
  rewrite !(In (n - 1 - i)%Z), !(In i), !(In 0%Z), !(In (n - 1)%Z) by lia.
  assert (C2 : 2 = 2 * INR 1) by (simpl; lra).
  destruct (window_cos_ends 1 2 n C2 Hn) as [E0 E1].
  rewrite E0, E1, !(window_cos_reflect 1 2 i n C2 Hn).
  pose proof (COS_bound (2 * PI * IZR i / IZR (n - 1))) as [Cl Cu].
  split; [split; reflexivity |].
  split; [split; lra |]. split; [split; lra |].
  split; [split; split; lra |]. split; [lra |].
  intros m Hm.
  assert (Hm0 : IZR m <> 0) by (apply not_0_IZR; lia).
  rewrite (In m) by lia.
  replace (2 * PI * IZR m / IZR (n - 1)) with PI.
  - rewrite cos_PI. split; lra.
  - replace (n - 1)%Z with (2 * m)%Z by lia. rewrite mult_IZR. field.
    exact Hm0.
Qed.

Lemma hanning_hamming_shape_witness :
  (2 <= 5)%Z /\ (0 <= 1 < 5)%Z /\
  hanning (5 - 1 - 1) 5 = hanning 1 5 /\ hanning 2 5 = 1.
Proof.
  assert (Hn : (2 <= 5)%Z) by (intros E; discriminate E).
  assert (Hi : (0 <= 1 < 5)%Z)
    by (split; [intros E; discriminate E | reflexivity]).
  split; [exact Hn |]. split; [exact Hi |].
  pose proof (hanning_hamming_shape 1 5 Hn Hi) as H.
  split; [exact (proj1 (proj1 H)) |].
  exact (proj1 (proj2 (proj2 (proj2 (proj2 (proj2 H)))) 2%Z eq_refl)).
Defined.

(** X23 (in exact arithmetic).  For a window of length [n >= 2], [blackman] is symmetric about the
    middle, is 0 at both ends and 1 in the middle of a window of odd length,
    and lies in [[0, 1]] at every index; the overload with a [double] index
    agrees with it at integer indices. *)
Theorem blackman_shape (i n : Z) :
  (2 <= n)%Z ->
  blackman (n - 1 - i) n = blackman i n /\
  (blackman 0 n = 0 /\ blackman (n - 1) n = 0) /\
  0 <= blackman i n <= 1 /\
  blackman_double (IZR i) n = blackman i n /\
  (forall m : Z, n = (2 * m + 1)%Z -> blackman m n = 1).
Proof.
  intros Hn.
  assert (Hd : IZR (n - 1) <> 0) by (apply not_0_IZR; lia).
  assert (C2 : 2 = 2 * INR 1) by (simpl; lra).
  assert (C4 : 4 = 2 * INR 2) by (simpl; lra).
  destruct (window_cos_ends 1 2 n C2 Hn) as [E0 E1].
  destruct (window_cos_ends 2 4 n C4 Hn) as [F0 F1].
  unfold blackman, blackman_double.
  rewrite E0, E1, F0, F1.
  rewrite (window_cos_reflect 1 2 i n C2 Hn), (window_cos_reflect 2 4 i n C4 Hn).
  split; [reflexivity |]. split; [split; lra |].
  split.
  - replace (4 * PI * IZR i / IZR (n - 1))
      with (2 * (2 * PI * IZR i / IZR (n - 1))) by (field; exact Hd).
    rewrite cos_2a_cos.
    pose proof (COS_bound (2 * PI * IZR i / IZR (n - 1))) as [Cl Cu].
    split; nra.
  - split; [reflexivity |].
    intros m Hm. assert (Hm0 : IZR m <> 0) by (apply not_0_IZR; lia).
    replace (2 * PI * IZR m / IZR (n - 1)) with PI.
    + replace (4 * PI * IZR m / IZR (n - 1)) with (2 * PI).
      * rewrite cos_PI, cos_2PI. lra.
      * replace (n - 1)%Z with (2 * m)%Z by lia. rewrite mult_IZR. field.
        exact Hm0.
    + replace (n - 1)%Z with (2 * m)%Z by lia. rewrite mult_IZR. field.
      exact Hm0.
Qed.

Lemma blackman_shape_witness :
  (2 <= 5)%Z /\ blackman (5 - 1 - 1) 5 = blackman 1 5 /\ blackman 2 5 = 1.
Proof.
  assert (Hn : (2 <= 5)%Z) by (intros E; discriminate E).
  split; [exact Hn |].
  pose proof (blackman_shape 1 5 Hn) as H.
  split; [exact (proj1 H) |].
  exact (proj2 (proj2 (proj2 (proj2 H))) 2%Z eq_refl).
Defined.

(** X24 (in exact arithmetic).  For a window of length [n >= 2], [blackman_harris] is symmetric about
    the middle, is 0.00006 at both ends and 1 in the middle of a window of
    odd length, and lies in [[0.00006, 1]] at every index; the overload with
    a [double] index agrees with it at integer indices. *)
Theorem blackman_harris_shape (i n : Z) :
  (2 <= n)%Z ->
  blackman_harris (n - 1 - i) n = blackman_harris i n /\
  (blackman_harris 0 n = 6 / 100000 /\
   blackman_harris (n - 1) n = 6 / 100000) /\
  6 / 100000 <= blackman_harris i n <= 1 /\
  blackman_harris_double (IZR i) n = blackman_harris i n /\
  (forall m : Z, n = (2 * m + 1)%Z -> blackman_harris m n = 1).
Proof.
  intros Hn.
  assert (Hd : IZR (n - 1) <> 0) by (apply not_0_IZR; lia).
  assert (C2 : 2 = 2 * INR 1) by (simpl; lra).
  assert (C4 : 4 = 2 * INR 2) by (simpl; lra).
  assert (C6 : 6 = 2 * INR 3) by (simpl; lra).
  destruct (window_cos_ends 1 2 n C2 Hn) as [E0 E1].
  destruct (window_cos_ends 2 4 n C4 Hn) as [F0 F1].
  destruct (window_cos_ends 3 6 n C6 Hn) as [G0 G1].
  unfold blackman_harris, blackman_harris_double.
  rewrite E0, E1, F0, F1, G0, G1.
  rewrite (window_cos_reflect 1 2 i n C2 Hn), (window_cos_reflect 2 4 i n C4 Hn),
    (window_cos_reflect 3 6 i n C6 Hn).
  split; [reflexivity |]. split; [split; lra |].
  split.
  - replace (4 * PI * IZR i / IZR (n - 1))
      with (2 * (2 * PI * IZR i / IZR (n - 1))) by (field; exact Hd).
    replace (6 * PI * IZR i / IZR (n - 1))
      with (3 * (2 * PI * IZR i / IZR (n - 1))) by (field; exact Hd).
    rewrite cos_2a_cos, cos_3a.
    pose proof (COS_bound (2 * PI * IZR i / IZR (n - 1))) as [Cl Cu].
    set (c := cos (2 * PI * IZR i / IZR (n - 1))) in *.
    assert (P1 : 0 <= 1 - c) by lra.
    assert (P2 : 0 <= 1 + c) by lra.
    assert (P3 : 0 <= (1 - c) * (1 + c)) by (apply Rmult_le_pos; assumption).
    assert (P4 : 0 <= (1 - c) * (1 - c)) by (apply Rmult_le_pos; assumption).
    assert (P5 : 0 <= (1 + c) * (1 + c)) by (apply Rmult_le_pos; assumption).
    assert (P6 : 0 <= (1 - c) * ((1 - c) * (1 - c)))
      by (apply Rmult_le_pos; assumption).
    assert (P7 : 0 <= (1 + c) * ((1 + c) * (1 + c)))
      by (apply Rmult_le_pos; assumption).
    assert (P8 : 0 <= (1 - c) * ((1 + c) * (1 + c)))
      by (apply Rmult_le_pos; assumption).
    assert (P9 : 0 <= (1 + c) * ((1 - c) * (1 - c)))
      by (apply Rmult_le_pos; assumption).
    split; nra.
  - split; [reflexivity |].
    intros m Hm. assert (Hm0 : IZR m <> 0) by (apply not_0_IZR; lia).
    assert (A : forall c, c * PI * IZR m / IZR (n - 1) = c / 2 * PI).
    { intros c. replace (n - 1)%Z with (2 * m)%Z by lia. rewrite mult_IZR.
      field. exact Hm0. }
    rewrite !A.
    replace (2 / 2 * PI) with PI by field.
    replace (4 / 2 * PI) with (2 * PI) by field.
    replace (6 / 2 * PI) with (PI + 2 * INR 1 * PI) by (simpl; field).
    rewrite cos_period, cos_PI, cos_2PI. lra.
Qed.

Lemma blackman_harris_shape_witness :
  (2 <= 5)%Z /\ blackman_harris (5 - 1 - 1) 5 = blackman_harris 1 5 /\
  blackman_harris 2 5 = 1.
Proof.
  assert (Hn : (2 <= 5)%Z) by (intros E; discriminate E).
  split; [exact Hn |].
  pose proof (blackman_harris_shape 1 5 Hn) as H.
  split; [exact (proj1 H) |].
  exact (proj2 (proj2 (proj2 (proj2 H))) 2%Z eq_refl).
Defined.

Lemma cos_even_quotient (c d D : R) :
  cos (c * PI * (- d) / D) = cos (c * PI * d / D).
Proof.
  replace (c * PI * (- d) / D) with (- (c * PI * d / D))
    by (unfold Rdiv; ring).
  apply cos_neg.
Qed.

Lemma symmetric_blackman_period (d : R) (n : Z) :
  (2 <= n)%Z -> symmetric_blackman (d + IZR n) n = symmetric_blackman d n.
Proof.
  intros Hn. assert (Hd : IZR n <> 0) by (apply not_0_IZR; lia).
  unfold symmetric_blackman. cbn zeta. set (q := IZR (Z.quot n 2)).
  replace (2 * PI * (d + IZR n - q) / IZR n)
    with (2 * PI * (d - q) / IZR n + 2 * INR 1 * PI)
    by (simpl; field; exact Hd).
  replace (4 * PI * (d + IZR n - q) / IZR n)
    with (4 * PI * (d - q) / IZR n + 2 * INR 2 * PI)
    by (simpl; field; exact Hd).
  rewrite !cos_period. reflexivity.
Qed.

(** X25 (in exact arithmetic).  The symmetric windows, for a length [n >= 2], are even about the index
    [n / 2] (the quotient of the integer division): [symmetric_blackman] and
    [symmetric_blackman_harris] take the same value [d] above and [d] below
    it, and the values 0 and 0.00006 at it.  [symmetric_blackman]
    has period [n] in the index and, for an even length, is 1 at the index
    0 and at the index [n]. *)
Theorem symmetric_windows_even (d : R) (n : Z) :
  (2 <= n)%Z ->
  let q := IZR (Z.quot n 2) in
  symmetric_blackman (q + d) n = symmetric_blackman (q - d) n /\
  symmetric_blackman_harris (q + d) n = symmetric_blackman_harris (q - d) n /\
  symmetric_blackman q n = 0 /\
  symmetric_blackman_harris q n = 6 / 100000 /\
  symmetric_blackman (d + IZR n) n = symmetric_blackman d n /\
  (forall m : Z, n = (2 * m)%Z ->
     symmetric_blackman 0 n = 1 /\ symmetric_blackman (IZR n) n = 1).
Proof.
  intros Hn q.
  assert (Hd : IZR n <> 0) by (apply not_0_IZR; lia).
  assert (Hd1 : IZR (n - 1) <> 0) by (apply not_0_IZR; lia).
  assert (Z0 : forall c D, cos (c * PI * 0 / D) = 1).
  { intros c D. replace (c * PI * 0 / D) with 0 by (unfold Rdiv; ring).
    apply cos_0. }
  pose proof (symmetric_blackman_period d n Hn) as Per.
  split; [| split; [| split; [| split; [| split; [exact Per |]]]]].
  - unfold symmetric_blackman. cbn zeta. fold q.
    replace (q + d - q) with d by ring.
    replace (q - d - q) with (- d) by ring.
    rewrite !cos_even_quotient. reflexivity.
  - unfold symmetric_blackman_harris. cbn zeta. fold q.
    replace (q + d - q) with d by ring.
    replace (q - d - q) with (- d) by ring.
    rewrite !cos_even_quotient. reflexivity.
  - unfold symmetric_blackman. cbn zeta. fold q.
    replace (q - q) with 0 by ring. rewrite !Z0. lra.
  - unfold symmetric_blackman_harris. cbn zeta. fold q.
    replace (q - q) with 0 by ring. rewrite !Z0. lra.
  - intros m Hm.
    assert (Hm0 : IZR m <> 0) by (apply not_0_IZR; lia).
    assert (Hq : q = IZR m).
    { unfold q. rewrite Hm. f_equal.
      rewrite Z.mul_comm. apply Z.quot_mul. discriminate. }
    assert (V : symmetric_blackman 0 n = 1).
    { unfold symmetric_blackman. cbn zeta. fold q. rewrite Hq, Hm, mult_IZR.
      replace (2 * PI * (0 - IZR m) / (2 * IZR m)) with (- PI)
        by (field; exact Hm0).
      replace (4 * PI * (0 - IZR m) / (2 * IZR m)) with (- (2 * PI))
        by (field; exact Hm0).
      rewrite !cos_neg, cos_PI, cos_2PI. lra. }
    split; [exact V |].
    replace (IZR n) with (0 + IZR n) at 1 by ring.
    rewrite (symmetric_blackman_period 0 n Hn). exact V.
Qed.

Lemma symmetric_windows_even_witness :
  (2 <= 8)%Z /\
  symmetric_blackman (IZR (Z.quot 8 2) + 3) 8
  = symmetric_blackman (IZR (Z.quot 8 2) - 3) 8 /\
  symmetric_blackman 0 8 = 1.
Proof.
  assert (Hn : (2 <= 8)%Z) by (intros E; discriminate E).
  split; [exact Hn |].
  pose proof (symmetric_windows_even 3 8 Hn) as H. cbn zeta in H.
  split; [exact (proj1 H) |].
  exact (proj1 (proj2 (proj2 (proj2 (proj2 (proj2 H)))) 4%Z eq_refl)).
Defined.

End WindowShapes.

(** ** Amplitude curves: the other direction *)

Section AmplitudeCurvesMore.

(** X26 (in exact arithmetic).  [amp_to_linear] is silent for every control value that is not positive,
    is the cube above, is never negative and is monotone. *)
Theorem amp_to_linear_shape (a b : R) :
  0 <= amp_to_linear a /\
  (a <= 0 -> amp_to_linear a = 0) /\
  (0 <= a -> amp_to_linear a = a * a * a) /\
  (a <= b -> amp_to_linear a <= amp_to_linear b) /\
  (0 <= a < b -> amp_to_linear a < amp_to_linear b).
Proof.
  assert (M : forall x, 0 <= Rmax 0 x) by (intros x; apply Rmax_l).
  assert (C : forall p q, 0 <= p <= q -> p * p * p <= q * q * q).
  { intros p q [Hp Hq]. assert (p * p <= q * q) by nra. nra. }
  unfold amp_to_linear. cbn zeta.
  split; [pose proof (M a); assert (0 <= Rmax 0 a * Rmax 0 a) by nra; nra |].
  split; [intros H; rewrite Rmax_left by exact H; ring |].
  split; [intros H; rewrite Rmax_right by exact H; ring |].
  split.
  - intros H. apply C. split; [apply M |].
    apply Rle_max_compat_l. exact H.
  - intros [Ha Hab]. rewrite !Rmax_right by lra.
    assert (0 < (b - a) * (a * a + a * b + b * b))
      by (apply Rmult_lt_0_compat; nra).
    nra.
Qed.

Lemma amp_to_linear_shape_witness :
  - 1 <= 0 /\ amp_to_linear (- 1) = 0 /\
  0 <= 1 / 2 < 1 /\ amp_to_linear (1 / 2) < amp_to_linear 1.
Proof.
  assert (H1 : - 1 <= 0) by lra.
  assert (H2 : 0 <= 1 / 2 < 1) by lra.
  split; [exact H1 |].
  split; [exact (proj1 (proj2 (amp_to_linear_shape (- 1) 0)) H1) |].
  split; [exact H2 |].
  exact (proj2 (proj2 (proj2 (proj2 (amp_to_linear_shape (1 / 2) 1)))) H2).
Defined.

Lemma powf_2_monotone (p q : R) : p <= q -> powf 2 p <= powf 2 q.
Proof.
  intros [Hlt | ->]; [| right; reflexivity].
  left. unfold powf. apply Rpower_lt; lra.
Qed.

Lemma powf_2_1 : powf 2 1 = 2.
Proof. unfold powf. apply Rpower_1. lra. Qed.

Lemma log2_powf_2 (p : R) : log2 (powf 2 p) = p.
Proof.
  unfold log2, powf, Rpower. rewrite ln_exp. field.
  pose proof ln_2_pos. lra.
Qed.

(** X27.  The round trips in the other direction, in exact arithmetic: the cube
    of the cube root is [x] for every [x] between the epsilon [1e-10] of
    [linear_to_amp] and 1; the decibel value of the amplitude of [d] is [d]
    for every [d] from -192 to 18.  From 18 on [db_to_amp] is saturated at
    2, which reads back as 18. *)
Theorem amplitude_reverse_round_trips (x d : R) :
  1 / 10 ^ 10 <= x <= 1 ->
  -192 <= d <= 18 ->
  amp_to_linear (linear_to_amp x) = x /\
  amp_to_db (db_to_amp d) = d /\
  (forall d', 18 <= d' ->
     db_to_amp d' = 2 /\ amp_to_db (db_to_amp d') = 18).
Proof.
  intros Hx Hd.
  assert (H2 : forall p, p <= 1 -> 0 <= powf 2 p <= 2).
  { intros p Hp. split; [left; unfold powf, Rpower; apply exp_pos |].
    pose proof (powf_2_monotone p 1 Hp) as H. rewrite powf_2_1 in H.
    exact H. }
  assert (B : amp_to_db 2 = 18).
  { unfold amp_to_db. replace (log2 2) with 1.
    - rewrite limit_range_inside by lra. ring.
    - unfold log2. field. pose proof ln_2_pos. lra. }
  split; [| split].
  - unfold linear_to_amp. rewrite limit_range_inside by lra.
    assert (Hp : 0 < powf x (1 / 3)) by (unfold powf, Rpower; apply exp_pos).
    rewrite amp_to_linear_nonneg by lra.
    unfold powf. rewrite <- !Rpower_plus.
    replace (1 / 3 + 1 / 3 + 1 / 3) with 1 by lra.
    apply Rpower_1. lra.
  - unfold db_to_amp. rewrite limit_range_inside by (apply H2; lra).
    unfold amp_to_db. rewrite log2_powf_2.
    rewrite limit_range_inside by lra. field.
  - intros d' Hd'.
    assert (E : db_to_amp d' = 2).
    { unfold db_to_amp, limit_range.
      assert (2 <= powf 2 (d' / 18)).
      { pose proof (powf_2_monotone 1 (d' / 18)) as H.
        rewrite powf_2_1 in H. apply H. lra. }
      rewrite Rmax_left by lra. apply Rmin_right. assumption. }
    rewrite E. split; [reflexivity | exact B].
Qed.

Lemma amplitude_reverse_round_trips_witness :
  1 / 10 ^ 10 <= 1 / 8 <= 1 /\ -192 <= -6 <= 18 /\
  amp_to_linear (linear_to_amp (1 / 8)) = 1 / 8 /\
  amp_to_db (db_to_amp (-6)) = -6.
Proof.
  assert (Hx : 1 / 10 ^ 10 <= 1 / 8 <= 1) by lra.
  assert (Hd : -192 <= -6 <= 18) by lra.
  split; [exact Hx |]. split; [exact Hd |].
  pose proof (amplitude_reverse_round_trips (1 / 8) (-6) Hx Hd) as H.
  split; [exact (proj1 H) | exact (proj1 (proj2 H))].
Defined.

End AmplitudeCurvesMore.

(** ** The cursor handling of the filter analysis overlay *)

Section Cursor.

Import FilterAnalysis.

Variable localPointToGlobal : point_int -> point_int.

Lemma last_unbounded_app (tr1 tr2 : list mouse_call) (before : bool) :
  last_unbounded (tr1 ++ tr2) before
  = last_unbounded tr2 (last_unbounded tr1 before).
Proof.
  revert before. induction tr1 as [| c tr1 IH]; intros before.
  - reflexivity.
  - destruct c as [b | p]; cbn; apply IH.
Qed.

Lemma exec_tracks_unbounded (c : call) (s : state) :
  cursorHidden (fst (exec localPointToGlobal c s))
  = last_unbounded (snd (exec localPointToGlobal c s)) (cursorHidden s).
Proof.
  destruct c as [w | sc | sc w]; cbn [exec].
  - reflexivity.
  - unfold guaranteeCursorShown.
    destruct (negb sc && cursorHidden s); reflexivity.
  - unfold hideCursor. destruct (negb sc); reflexivity.
Qed.

(** X28.  The overlay keeps the mouse source in step with its own record: after
    any sequence of calls of [showCursorAt], [hideCursor] and
    [guaranteeCursorShown], [cursorHidden] is the argument of the last
    [enableUnboundedMouseMovement] it sent, or its initial [false] when it
    sent none.  Unbounded movement is on exactly while the overlay records
    the cursor as hidden. *)
Theorem cursor_hidden_tracks_unbounded (cs : list call) :
  let (s', sent) := run localPointToGlobal cs initial in
  cursorHidden s' = last_unbounded sent false.
Proof.
  assert (G : forall cs s,
             cursorHidden (fst (run localPointToGlobal cs s))
             = last_unbounded (snd (run localPointToGlobal cs s))
                 (cursorHidden s)).
  { clear cs. induction cs as [| c cs IH]; intros s.
    - reflexivity.
    - cbn [run]. pose proof (exec_tracks_unbounded c s) as E.
      destruct (exec localPointToGlobal c s) as [s1 out1].
      specialize (IH s1).
      destruct (run localPointToGlobal cs s1) as [s2 out2].
      cbn [fst snd] in *. rewrite last_unbounded_app, <- E. exact IH. }
  specialize (G cs initial).
  destruct (run localPointToGlobal cs initial) as [s' sent].
  exact G.
Qed.

(** X29.  Hiding and showing again, when the preference is to hide the cursor at
    both calls: [hideCursor w] then [guaranteeCursorShown] switches
    unbounded movement on, then off, and puts the pointer back at the global
    position of [w]; a position given in between by [showCursorAt] replaces
    [w]; a second [guaranteeCursorShown] sends nothing.  When the preference
    has changed to showing the cursor by the time of
    [guaranteeCursorShown], that call does nothing: the cursor stays
    recorded as hidden and unbounded movement stays on. *)
Theorem cursor_hide_and_show_again (w w' : point_int) (s : state) :
  run localPointToGlobal
    [HideCursor false w; GuaranteeCursorShown false] s
  = ({| cursorHideOrigin := w; cursorHidden := false |},
     [enableUnboundedMouseMovement true;
      enableUnboundedMouseMovement false;
      setScreenPosition (toFloat (localPointToGlobal w))]) /\
  snd (run localPointToGlobal
         [HideCursor false w; ShowCursorAt w'; GuaranteeCursorShown false] s)
  = [enableUnboundedMouseMovement true;
     enableUnboundedMouseMovement false;
     setScreenPosition (toFloat (localPointToGlobal w'))] /\
  (forall sc : bool,
     guaranteeCursorShown localPointToGlobal sc
       (fst (guaranteeCursorShown localPointToGlobal sc s))
     = (fst (guaranteeCursorShown localPointToGlobal sc s), [])) /\
  run localPointToGlobal
    [HideCursor false w; GuaranteeCursorShown true] s
  = ({| cursorHideOrigin := w; cursorHidden := true |},
     [enableUnboundedMouseMovement true]).
Proof.
  split; [reflexivity |]. split; [reflexivity |]. split; [| reflexivity].
  intros sc. unfold guaranteeCursorShown.
  destruct (negb sc && cursorHidden s) eqn:E; cbn [fst cursorHidden].
  - rewrite andb_false_r. reflexivity.
  - rewrite E. reflexivity.
Qed.

(** X30.  While the preference is to show the cursor, the overlay leaves the
    mouse source alone: a sequence of calls that all see this preference
    sends nothing and does not change [cursorHidden]. *)
Theorem cursor_shown_sends_nothing (cs : list call) (s : state) :
  Forall (fun c => asks_show_cursor c <> Some false) cs ->
  snd (run localPointToGlobal cs s) = [] /\
  cursorHidden (fst (run localPointToGlobal cs s)) = cursorHidden s.
Proof.
  intros H. revert s. induction H as [| c cs Hc _ IH]; intros s.
  - split; reflexivity.
  - cbn [run].
    assert (E : snd (exec localPointToGlobal c s) = [] /\
                cursorHidden (fst (exec localPointToGlobal c s))
                = cursorHidden s).
    { destruct c as [w | sc | sc w]; cbn [exec].
      - split; reflexivity.
      - destruct sc; [| exfalso; apply Hc; reflexivity].
        split; reflexivity.
      - destruct sc; [| exfalso; apply Hc; reflexivity].
        split; reflexivity. }
    destruct (exec localPointToGlobal c s) as [s1 out1].
    specialize (IH s1).
    destruct (run localPointToGlobal cs s1) as [s2 out2].
    cbn [fst snd] in *. destruct E as [-> <-]. exact IH.
Qed.

End Cursor.

Lemma cursor_shown_sends_nothing_witness :
  let cs := [FilterAnalysis.HideCursor true (3, 4)%Z;
             FilterAnalysis.GuaranteeCursorShown true] in
  Forall (fun c => asks_show_cursor c <> Some false) cs /\
  snd (FilterAnalysis.run (fun p => p) cs FilterAnalysis.initial) = [].
Proof.
  intros cs.
  assert (H : Forall (fun c => asks_show_cursor c <> Some false) cs).
  { repeat constructor; intros E; discriminate E. }
  split; [exact H |].
  exact (proj1 (cursor_shown_sends_nothing (fun p => p) cs
                  FilterAnalysis.initial H)).
Defined.
